(** * MeetTaskAI: the task store, the extraction pipeline and the CSV export

    A shallow embedding of the TypeScript sources
    - [server/storage.ts]  (class [MemStorage]),
    - [server/openai.ts]   ([extractTasksFromTranscript], [extractAudioFromVideo]),
    - [server/routes.ts]   (the request handlers),
    - [client/src/pages/task-converter.tsx] ([exportToCSV]),
    followed by the properties proved about them.

    The server is untyped at run time: request bodies and the language
    model's answer are JSON, and TypeScript's annotations are erased.  The
    embedding therefore works on JavaScript values, not on the declared
    interfaces. *)

From stdpp Require Import gmap strings list fin_maps pretty sorting.

#[local] Set Warnings "-register-all".

(* ===================================================================== *)
(** ** JavaScript values *)
(* ===================================================================== *)

(** The values the modelled code handles.  A string is a sequence of code
    units below 256; a number is an integer (no modelled computation
    produces or inspects a fraction); [VDate t] is a [Date] object whose time
    value is [t] milliseconds since the epoch.  Objects are finite maps from
    property names to values. *)
Inductive value : Type :=
  | VUndefined
  | VNull
  | VBool (b : bool)
  | VNum (n : Z)
  | VStr (s : string)
  | VDate (t : Z)
  | VArr (items : list value)
  | VObj (props : gmap string value).

Abbreviation object := (gmap string value).

(** [ToBoolean]: what [if (v)], [!v] and [v || w] test. *)
Definition truthy (v : value) : bool :=
  match v with
  | VUndefined | VNull => false
  | VBool b => b
  | VNum n => negb (n =? 0)%Z
  | VStr s => negb (String.eqb s "")
  | VDate _ | VArr _ | VObj _ => true
  end.

(** [a || b] *)
Definition js_or (a b : value) : value := if truthy a then a else b.

(** [o.k] on an object: a missing property reads as [undefined]. *)
Definition prop (o : object) (k : string) : value := default VUndefined (o !! k).

(** The properties an object spread [{...v}] copies from [v]: the own
    enumerable properties.  An array contributes its elements under their
    indices, a string its characters; [undefined], [null], numbers, booleans
    and dates contribute nothing. *)
Definition ownProps (v : value) : object :=
  match v with
  | VObj o => o
  | VArr items => list_to_map (imap (λ i x, (pretty i, x)) items)
  | VStr s =>
      list_to_map
        (imap (λ i c, (pretty i, VStr (String c EmptyString))) (String.list_ascii_of_string s))
  | _ => ∅
  end.

(** [Array.isArray] *)
Definition isArray (v : value) : bool :=
  match v with VArr _ => true | _ => false end.

(** *** Completions: a call returns normally or throws an [Error] *)

Inductive completion (A : Type) : Type :=
  | Return (a : A)
  | Throw (message : string).
Arguments Return {A} a.
Arguments Throw {A} message.

#[global] Instance completion_ret : MRet completion := λ A a, Return a.
#[global] Instance completion_bind : MBind completion := λ A B k c,
  match c with
  | Return a => k a
  | Throw m => Throw m
  end.

#[global] Instance completion_fmap : FMap completion := λ A B f c,
  match c with
  | Return a => Return (f a)
  | Throw m => Throw m
  end.

(** [try { c } catch (error) { throw new Error(prefix + error.message) }] *)
Definition rethrow {A} (prefix : string) (c : completion A) : completion A :=
  match c with
  | Return a => Return a
  | Throw m => Throw (prefix +:+ m)
  end.

(** *** [Map<number, V>]

    A JavaScript [Map] iterates in insertion order, and [set] on a key that
    is present keeps the key's position; an association list in insertion
    order models it. *)

Fixpoint Map_get {V} (k : Z) (m : list (Z * V)) : option V :=
  match m with
  | [] => None
  | (k', v) :: m' => if decide (k' = k) then Some v else Map_get k m'
  end.

Fixpoint Map_set {V} (k : Z) (v : V) (m : list (Z * V)) : list (Z * V) :=
  match m with
  | [] => [(k, v)]
  | (k', v') :: m' =>
      if decide (k' = k) then (k, v) :: m' else (k', v') :: Map_set k v m'
  end.

(** [delete] answers whether the key was present. *)
Fixpoint Map_delete {V} (k : Z) (m : list (Z * V)) : bool * list (Z * V) :=
  match m with
  | [] => (false, [])
  | (k', v') :: m' =>
      if decide (k' = k) then (true, m')
      else let '(b, m'') := Map_delete k m' in (b, (k', v') :: m'')
  end.

Definition Map_values {V} (m : list (Z * V)) : list V := m.*2.

(** *** [Array.prototype.sort]

    [sort] is stable, and a comparator result that is [NaN] counts as [+0]
    (ECMAScript, SortCompare).  A call of the comparator that throws ends
    the sort with that exception.  An array of fewer than two elements is
    returned without a call; in an array of two or more, every element takes
    part in a call, in every engine as in the insertion sort below.  For a
    consistent comparator the stable sorted order is unique, so every
    conforming engine returns the list below.  For an inconsistent
    comparator the order is left to the engine; the one input of that kind
    used further down is an array whose neighbours all compare as equal,
    which V8 takes for a single run and returns as it is, as the insertion
    sort does. *)

Section Array_sort.
Context {A : Type} (comparefn : A → A → completion (option Z)).

(** [comparefn a b > 0]: [b] is to come before [a]. *)
Definition sortsAfter (a b : A) : completion bool :=
  v ← comparefn a b;
  mret (match v with
        | Some v => bool_decide (0 < v)%Z
        | None => false
        end).

Fixpoint sort_insert (x : A) (l : list A) : completion (list A) :=
  match l with
  | [] => Return [x]
  | y :: l' =>
      after ← sortsAfter x y;
      if (after : bool) then sorted ← sort_insert x l'; mret (y :: sorted)
      else Return (x :: y :: l')
  end.

Fixpoint Array_sort (l : list A) : completion (list A) :=
  match l with
  | [] => Return []
  | x :: l' => sorted ← Array_sort l'; sort_insert x sorted
  end.
End Array_sort.

(* ===================================================================== *)
(** ** server/storage.ts: [MemStorage] *)
(* ===================================================================== *)

(** The four private fields of the class.  The two counters are JavaScript
    numbers; [++] is exact on the integers a process can count through, so
    they are integers here. *)
Record MemStorage : Type := {
  users : list (Z * gmap string value);
  tasks : list (Z * gmap string value);
  currentUserId : Z;
  currentTaskId : Z
}.

(** [constructor()] *)
Definition MemStorage_new : MemStorage :=
  {| users := []; tasks := []; currentUserId := 1; currentTaskId := 1 |}.

Definition getUser (id : Z) (st : MemStorage) : option object :=
  Map_get id (users st).

(** [user.username === username] for a string [username]. *)
Definition getUserByUsername (username : string) (st : MemStorage) : option object :=
  List.find
    (λ user, match prop user "username" with
             | VStr s => String.eqb s username
             | _ => false
             end)
    (Map_values (users st)).

Definition createUser (insertUser : object) (st : MemStorage) : object * MemStorage :=
  let id := currentUserId st in
  let user := <["id" := VNum id]> insertUser in
  (user,
   {| users := Map_set id user (users st); tasks := tasks st;
      currentUserId := (id + 1)%Z; currentTaskId := currentTaskId st |}).

(** Whether converting [v] to a primitive value ([ToPrimitive]) throws a
    [TypeError].  No property of a modelled object is a function.  For such
    an object [Object.prototype.valueOf] returns the object itself and an
    own [valueOf] is not callable, so the conversion rests on [toString]: it
    throws exactly when the object has an own [toString], which hides
    [Object.prototype.toString] and is not callable.  An array is converted
    by [Array.prototype.join], which converts its elements in turn. *)
Fixpoint ToPrimitive_throws (v : value) : bool :=
  match v with
  | VObj o => bool_decide (is_Some (o !! "toString"))
  | VArr items => existsb ToPrimitive_throws items
  | _ => false
  end.

Section getAllTasks.
(** [Date.parse], which the engine defines: the time value [new Date(v)]
    gets for a string [v], and for an array or object that has a string form
    through that form.  [None] is [NaN]. *)
Context (Date_parse : value → option Z).

(** [TimeClip] *)
Definition TimeClip (n : Z) : option Z :=
  if decide (Z.abs n ≤ 8640000000000000)%Z then Some n else None.

(** [new Date(v).getTime()]; [None] is [NaN].  [new Date(v)] converts an
    array or object [v] to a primitive first, which can throw. *)
Definition getTime (v : value) : completion (option Z) :=
  match v with
  | VDate t => Return (Some t)
  | VNum n => Return (TimeClip n)
  | VBool b => Return (Some (if b then 1 else 0)%Z)
  | VNull => Return (Some 0%Z)
  | VUndefined => Return None
  | VStr _ => Return (Date_parse v)
  | VArr _ | VObj _ =>
      if ToPrimitive_throws v then Throw "Cannot convert object to primitive value"
      else Return (Date_parse v)
  end.

(** [(a, b) => new Date(b.createdAt).getTime() - new Date(a.createdAt).getTime()] *)
Definition byCreatedAtDesc (a b : object) : completion (option Z) :=
  tb ← getTime (prop b "createdAt");
  ta ← getTime (prop a "createdAt");
  mret (match tb, ta with
        | Some tb, Some ta => Some (tb - ta)%Z
        | _, _ => None
        end).

(** [Throw] is the rejection of the promise. *)
Definition getAllTasks (st : MemStorage) : completion (list object) :=
  Array_sort byCreatedAtDesc (Map_values (tasks st)).
End getAllTasks.

(** [createTask(insertTask)]; [now] is the clock reading of [new Date()]. *)
Definition createTask (insertTask : object) (now : Z) (st : MemStorage)
  : object * MemStorage :=
  let id := currentTaskId st in
  let task :=
    <["createdAt" := VDate now]>
      (<["priority" := js_or (prop insertTask "priority") (VStr "P3")]>
         (<["id" := VNum id]> insertTask)) in
  (task,
   {| users := users st; tasks := Map_set id task (tasks st);
      currentUserId := currentUserId st; currentTaskId := (id + 1)%Z |}).

Arguments createTask : simpl never.

(** [updateTask(id, updates)]; [None] is [null].  A stored task is an object,
    hence truthy, so [!existingTask] holds exactly when the key is absent. *)
Definition updateTask (id : Z) (updates : value) (st : MemStorage)
  : option object * MemStorage :=
  match Map_get id (tasks st) with
  | None => (None, st)
  | Some existingTask =>
      let updatedTask := ownProps updates ∪ existingTask in
      (Some updatedTask,
       {| users := users st; tasks := Map_set id updatedTask (tasks st);
          currentUserId := currentUserId st; currentTaskId := currentTaskId st |})
  end.

Definition deleteTask (id : Z) (st : MemStorage) : bool * MemStorage :=
  let '(deleted, tasks') := Map_delete id (tasks st) in
  (deleted,
   {| users := users st; tasks := tasks';
      currentUserId := currentUserId st; currentTaskId := currentTaskId st |}).

Definition clearAllTasks (st : MemStorage) : MemStorage :=
  {| users := users st; tasks := [];
     currentUserId := currentUserId st; currentTaskId := currentTaskId st |}.

(** *** Sequences of store operations *)

Inductive Op : Type :=
  | OpCreateTask (insertTask : gmap string value) (now : Z)
  | OpUpdateTask (id : Z) (updates : value)
  | OpDeleteTask (id : Z)
  | OpClearAllTasks.

Inductive Reply : Type :=
  | Created (task : gmap string value)
  | Updated (task : option (gmap string value))
  | Deleted (removed : bool)
  | Cleared.

Definition step (st : MemStorage) (op : Op) : Reply * MemStorage :=
  match op with
  | OpCreateTask insertTask now =>
      let '(t, st') := createTask insertTask now st in (Created t, st')
  | OpUpdateTask id updates =>
      let '(r, st') := updateTask id updates st in (Updated r, st')
  | OpDeleteTask id =>
      let '(b, st') := deleteTask id st in (Deleted b, st')
  | OpClearAllTasks => (Cleared, clearAllTasks st)
  end.

(** The replies to a sequence of calls, and the state they leave. *)
Fixpoint run (st : MemStorage) (ops : list Op) : list Reply * MemStorage :=
  match ops with
  | [] => ([], st)
  | op :: ops' =>
      let '(r, st') := step st op in
      let '(rs, st'') := run st' ops' in
      (r :: rs, st'')
  end.

(** The store after a sequence of calls on a fresh [MemStorage]. *)
Definition reached (ops : list Op) : MemStorage := (run MemStorage_new ops).2.

(** The [id] fields of the records [createTask] returned, in call order. *)
Definition issuedIds (rs : list Reply) : list value :=
  omap (λ r, match r with Created t => Some (prop t "id") | _ => None end) rs.

(* ===================================================================== *)
(** ** Strings *)
(* ===================================================================== *)

(** [haystack.includes(needle)] *)
Fixpoint includes (needle haystack : string) : bool :=
  String.prefix needle haystack ||
  match haystack with
  | EmptyString => false
  | String _ rest => includes needle rest
  end.

(** White space and line terminators among the code units below 256: tab,
    line feed, vertical tab, form feed, carriage return, space and the
    no-break space. *)
Definition isWhiteSpace (c : Ascii.ascii) : bool :=
  bool_decide (Ascii.nat_of_ascii c ∈ [9; 10; 11; 12; 13; 32; 160]).

Fixpoint trimStart (s : string) : string :=
  match s with
  | EmptyString => EmptyString
  | String c s' => if isWhiteSpace c then trimStart s' else s
  end.

(** [s.trim()] *)
Definition trim (s : string) : string :=
  String.rev (trimStart (String.rev (trimStart s))).

(** [parts.join(sep)] *)
Fixpoint join (sep : string) (parts : list string) : string :=
  match parts with
  | [] => EmptyString
  | [p] => p
  | p :: rest => p +:+ sep +:+ join sep rest
  end.

(* ===================================================================== *)
(** ** server/openai.ts *)
(* ===================================================================== *)

(** What the first half of [extractTasksFromTranscript] obtained from the
    outside: the completion request was rejected (or its response held no
    message to read), or [JSON.parse(content || '{"tasks": []}')] threw, or
    it returned [result]. *)
Inductive Upstream : Type :=
  | CallFailed (message : string)
  | ParseFailed (message : string)
  | Parsed (result : value).

(** [v.k] on any value.  Reading a property of [undefined] or [null] throws
    a [TypeError] (the messages are V8's); on the other primitives, on
    arrays and on dates the names read below ([tasks], [description],
    [assignee], [deadline], [priority]) are not defined and read as
    [undefined]. *)
Definition readProp (v : value) (k : string) : completion value :=
  match v with
  | VUndefined => Throw ("Cannot read properties of undefined (reading '" +:+ k +:+ "')")
  | VNull => Throw ("Cannot read properties of null (reading '" +:+ k +:+ "')")
  | VObj o => Return (prop o k)
  | _ => Return VUndefined
  end.

(** The callback of [tasks.map]: builds one [ExtractedTask].  Nothing turns
    the fields into strings: [x || ""] keeps any truthy [x]. *)
Definition toExtractedTask (task : value) : completion object :=
  d ← readProp task "description";
  a ← readProp task "assignee";
  dl ← readProp task "deadline";
  p ← readProp task "priority";
  mret ({[ "description" := js_or d (VStr "");
           "assignee" := js_or a (VStr "");
           "deadline" := js_or dl (VStr "");
           "priority" := js_or p (VStr "P3") ]} : object).

(** [Array.isArray(result) ? result : (result.tasks || [])] *)
Definition tasksOf (result : value) : completion value :=
  if isArray result then Return result
  else t ← readProp result "tasks"; mret (js_or t (VArr [])).

(** [tasks.map(...)]: only an array has a [map] method. *)
Definition mapTasks (tasks : value) : completion (list object) :=
  match tasks with
  | VArr items => mapM toExtractedTask items
  | _ => Throw "tasks.map is not a function"
  end.

Definition extractTasksFromTranscript (upstream : Upstream) : completion (list object) :=
  rethrow "Failed to process transcript with AI: "
    (match upstream with
     | CallFailed m => Throw m
     | ParseFailed m => Throw m
     | Parsed result => tasks ← tasksOf result; mapTasks tasks
     end).

(** *** [extractAudioFromVideo] *)

(** The scratch directory: the content stored at each existing path. *)
Abbreviation FileSystem := (gmap string string).

(** How the [ffmpeg] child process ended: it could not be started (the
    ['error'] event), or it ran and closed with an exit code ([None] when a
    signal killed it), its error output, and the bytes it left at the output
    path, if it wrote any. *)
Inductive Ffmpeg : Type :=
  | SpawnError (message : string)
  | Closed (code : option Z) (stderr : string) (written : option string).

(** What the environment decides during one conversion. *)
Record Conversion : Type := {
  writeFails : bool;   (* [fs.writeFileSync] throws *)
  ffmpeg : Ffmpeg;
  readFails : bool     (* [fs.readFileSync] throws *)
}.

(** [path.join('/tmp', `video_${Date.now()}_${filename}`)], for a file name
    without directory separators. *)
Definition tempVideoPath (now : Z) (filename : string) : string :=
  "/tmp/video_" +:+ pretty now +:+ "_" +:+ filename.

Definition tempAudioPath (now : Z) : string :=
  "/tmp/audio_" +:+ pretty now +:+ ".mp3".

(** [fs.unlinkSync]: throws when there is no such file. *)
Definition unlinkSync (path : string) (fs : gmap string string)
  : completion unit * gmap string string :=
  match fs !! path with
  | Some _ => (Return (), delete path fs)
  | None => (Throw ("ENOENT: no such file or directory, unlink '" +:+ path +:+ "'"), fs)
  end.

(** [try { fs.unlinkSync(path) } catch { }] *)
Definition tryUnlink (path : string) (fs : gmap string string) : gmap string string :=
  (unlinkSync path fs).2.

(** [`${code}`] *)
Definition showCode (code : option Z) : string :=
  match code with Some c => pretty c | None => "null" end.

(** The promise's settlement ([Throw] is a rejection) and the scratch
    directory afterwards.  [now1] and [now2] are the two readings of
    [Date.now()].  Should Node emit ['close'] after ['error'], the promise is
    settled by then and the handler's one effect, deleting the video file,
    finds it gone: the outcome is that of ['error'] alone. *)
Definition extractAudioFromVideo (env : Conversion) (now1 now2 : Z)
    (videoBuffer filename : string) (fs : gmap string string)
  : completion string * gmap string string :=
  let video := tempVideoPath now1 filename in
  let audio := tempAudioPath now2 in
  if writeFails env then (Throw "Failed to write video file to disk", fs)
  else
    let fs := <[video := videoBuffer]> fs in
    match ffmpeg env with
    | SpawnError m =>
        let fs := tryUnlink video fs in
        let fs := tryUnlink audio fs in
        (Throw ("FFmpeg execution error: " +:+ m), fs)
    | Closed code stderr written =>
        let fs := match written with Some bytes => <[audio := bytes]> fs | None => fs end in
        let fs := tryUnlink video fs in
        if decide (code = Some 0%Z) then
          match fs !! audio with
          | Some audioBuffer =>
              if readFails env then (Throw "Failed to read extracted audio file", fs)
              else
                match unlinkSync audio fs with
                | (Return _, fs) => (Return audioBuffer, fs)
                | (Throw _, fs) => (Throw "Failed to read extracted audio file", fs)
                end
          | None => (Throw "Audio file was not created by FFmpeg", fs)
          end
        else
          (Throw ("FFmpeg process failed with code " +:+ showCode code
                  +:+ ". Error: " +:+ stderr), fs)
    end.

(* ===================================================================== *)
(** ** server/routes.ts *)
(* ===================================================================== *)

(** [res.status(status).json(body)]; [res.json] alone answers 200. *)
Record Response : Type := { status : Z; body : value }.

Definition messageOnly (status : Z) (message : string) : Response :=
  {| status := status; body := VObj {[ "message" := VStr message ]} |}.

(** [req.file] as multer leaves it. *)
Record UploadedFile : Type := { buffer : string; originalname : string }.

(** What a request obtains from outside the process: the outcome of
    [await transcribeAudio(buffer, originalname)] (the transcript, or the
    error it throws; the handlers are modelled for every such outcome), the
    language model's answer to a transcript, and the clock, whose [k]-th
    reading by the request is [clock k]. *)
Record Services : Type := {
  transcribeAudio : string → string → completion string;
  completions : string → Upstream;
  clock : nat → Z
}.

(** [taskData.description && taskData.assignee && taskData.deadline] as a
    condition. *)
Definition hasRequiredFields (taskData : object) : bool :=
  truthy (prop taskData "description")
  && truthy (prop taskData "assignee")
  && truthy (prop taskData "deadline").

Section routes.
(** The two zod schemas of [@shared/schema], which is not among the
    sources: [parse] returns the validated data or throws a [ZodError]. *)
Context (insertTaskSchema_parse : gmap string value → completion (gmap string value)).
Context (transcriptProcessSchema_parse : value → completion string).
Context (Date_parse : value → option Z).

(** [GET /api/tasks] *)
Definition handleGetTasks (st : MemStorage) : Response :=
  match getAllTasks Date_parse st with
  | Return tasks => {| status := 200; body := VArr (VObj <$> tasks) |}
  | Throw _ => messageOnly 500 "Failed to fetch tasks"
  end.

(** The loop [for (const taskData of extractedTasks) { ... }], which both
    processing handlers contain verbatim.  [savedTasks] accumulates; an
    exception leaves the loop with the store as it is by then. *)
Fixpoint saveTasks (clock : nat → Z) (extractedTasks savedTasks : list (gmap string value))
    (st : MemStorage) : completion (list (gmap string value)) * MemStorage :=
  match extractedTasks with
  | [] => (Return savedTasks, st)
  | taskData :: rest =>
      if hasRequiredFields taskData then
        match insertTaskSchema_parse taskData with
        | Throw m => (Throw m, st)
        | Return validatedTask =>
            let '(savedTask, st') :=
              createTask validatedTask (clock (length savedTasks)) st in
            saveTasks clock rest (savedTasks ++ [savedTask]) st'
        end
      else saveTasks clock rest savedTasks st
  end.

(** The [catch] block of [POST /api/process-transcript]. *)
Definition transcriptFailure (message : string) : Response :=
  if includes "OpenAI" message || includes "API" message then
    messageOnly 502
      "AI service is currently unavailable. Please check your API key and try again."
  else if includes "parse" message then messageOnly 400 "Invalid transcript format"
  else messageOnly 500 message.

(** [POST /api/process-transcript] *)
Definition handleProcessTranscript (env : Services) (reqBody : value) (st : MemStorage)
  : Response * MemStorage :=
  match transcriptProcessSchema_parse reqBody with
  | Throw m => (transcriptFailure m, st)
  | Return transcript =>
      if String.eqb (trim transcript) "" then
        (messageOnly 400 "Transcript cannot be empty", st)
      else
        match extractTasksFromTranscript (completions env transcript) with
        | Throw m => (transcriptFailure m, st)
        | Return extractedTasks =>
            match saveTasks (clock env) extractedTasks [] st with
            | (Throw m, st') => (transcriptFailure m, st')
            | (Return savedTasks, st') =>
                ({| status := 200;
                    body := VObj {[
                      "message" := VStr ("Successfully extracted "
                                         +:+ pretty (length savedTasks) +:+ " tasks");
                      "tasks" := VArr (VObj <$> savedTasks) ]} |}, st')
            end
        end
  end.

(** The [catch] block of [POST /api/process-audio]. *)
Definition audioFailure (message : string) : Response :=
  if includes "OpenAI" message || includes "API" message then
    messageOnly 502
      "AI service is currently unavailable. Please check your API key and try again."
  else if includes "transcribe" message then
    messageOnly 400
      "Failed to transcribe audio. Please ensure it's a valid audio file with clear speech."
  else messageOnly 500 message.

(** [POST /api/process-audio] *)
Definition handleProcessAudio (env : Services) (reqFile : option UploadedFile)
    (st : MemStorage) : Response * MemStorage :=
  match reqFile with
  | None => (messageOnly 400 "No audio file provided", st)
  | Some file =>
      match transcribeAudio env (buffer file) (originalname file) with
      | Throw m => (audioFailure m, st)
      | Return transcript =>
          if String.eqb (trim transcript) "" then
            (messageOnly 400 "No speech detected in audio file", st)
          else
            match extractTasksFromTranscript (completions env transcript) with
            | Throw m => (audioFailure m, st)
            | Return extractedTasks =>
                match saveTasks (clock env) extractedTasks [] st with
                | (Throw m, st') => (audioFailure m, st')
                | (Return savedTasks, st') =>
                    ({| status := 200;
                        body := VObj {[
                          "transcript" := VStr transcript;
                          "message" := VStr ("Successfully extracted "
                                             +:+ pretty (length savedTasks)
                                             +:+ " tasks from audio");
                          "tasks" := VArr (VObj <$> savedTasks) ]} |}, st')
                end
            end
      end
  end.
End routes.

(** [DELETE /api/tasks/:id]; [id] is [parseInt(req.params.id)], [None] for
    [NaN]. *)
Definition handleDeleteTask (id : option Z) (st : MemStorage) : Response * MemStorage :=
  match id with
  | None => (messageOnly 400 "Invalid task ID", st)
  | Some id =>
      let '(deleted, st') := deleteTask id st in
      if deleted then (messageOnly 200 "Task deleted successfully", st')
      else (messageOnly 404 "Task not found", st')
  end.

(** [PUT /api/tasks/:id]: the request body goes to the store as it came. *)
Definition handlePutTask (id : option Z) (reqBody : value) (st : MemStorage)
  : Response * MemStorage :=
  match id with
  | None => (messageOnly 400 "Invalid task ID", st)
  | Some id =>
      match updateTask id reqBody st with
      | (None, st') => (messageOnly 404 "Task not found", st')
      | (Some updatedTask, st') => ({| status := 200; body := VObj updatedTask |}, st')
      end
  end.

(** [DELETE /api/tasks] *)
Definition handleClearTasks (st : MemStorage) : Response * MemStorage :=
  (messageOnly 200 "All tasks cleared successfully", clearAllTasks st).

(* ===================================================================== *)
(** ** client/src/pages/task-converter.tsx: [exportToCSV] *)
(* ===================================================================== *)

(** The four fields of a task that the export reads, as the template
    literal renders them. *)
Record Task : Type := {
  description : string;
  assignee : string;
  deadline : string;
  priority : string
}.

#[global] Instance Task_eq_dec : EqDecision Task.
Proof. solve_decision. Defined.

(** The double quote character, and the line feed. *)
Definition dquote : string := String (Ascii.ascii_of_nat 34) EmptyString.
Definition newline : string := String (Ascii.ascii_of_nat 10) EmptyString.

(** [`"${field}"`] *)
Definition quoted (field : string) : string := dquote +:+ field +:+ dquote.

Definition csvRow (task : Task) : string :=
  join "," [quoted (description task); quoted (assignee task);
            quoted (deadline task); priority task].

Definition csvContent (tasks : list Task) : string :=
  join newline
    (join "," ["Task"; "Assigned To"; "Due Date/Time"; "Priority"] :: map csvRow tasks).

(** The text of the downloaded file; [None] when there is no task, where the
    function only shows a notice. *)
Definition exportToCSV (tasks : list Task) : option string :=
  if decide (length tasks = 0) then None else Some (csvContent tasks).

(* ===================================================================== *)
(** ** Vocabulary of the properties *)
(* ===================================================================== *)

(** The time [new Date(v).getTime()] yields; [None] when it yields [NaN]
    or throws. *)
Definition timeOf (Date_parse : value → option Z) (v : value) : option Z :=
  match getTime Date_parse v with
  | Return (Some t) => Some t
  | _ => None
  end.

(** The time a record's [createdAt] stands for, as [getAllTasks] reads it. *)
Definition createdTime (Date_parse : value → option Z) (task : object) : option Z :=
  timeOf Date_parse (prop task "createdAt").

(** A record whose [createdAt] [new Date] takes without throwing. *)
Definition readable (task : object) : bool :=
  negb (ToPrimitive_throws (prop task "createdAt")).

(** Sorted by [createdAt] descending: each record is at least as recent as
    every record listed after it.  Ties may stand in any order. *)
Definition newestFirst (Date_parse : value → option Z) (l : list object) : Prop :=
  StronglySorted
    (λ a b, ∃ ta tb, createdTime Date_parse a = Some ta
                     ∧ createdTime Date_parse b = Some tb ∧ (tb ≤ ta)%Z) l.

(** An operation that leaves every [createdAt] a time: all but an update
    whose payload carries a [createdAt] that [Date] cannot read. *)
Definition keepsCreatedAt (Date_parse : value → option Z) (op : Op) : Prop :=
  match op with
  | OpUpdateTask _ updates =>
      ∀ v, ownProps updates !! "createdAt" = Some v → is_Some (timeOf Date_parse v)
  | _ => True
  end.

(** The three priorities of the data model. *)
Definition validPriority (v : value) : Prop :=
  v ∈ [VStr "P1"; VStr "P2"; VStr "P3"].

(** An operation whose caller supplies no priority outside the three: a
    creation whose [priority] is absent, falsy or one of the three, an
    update whose payload has no [priority] or one of the three. *)
Definition suppliesValidPriority (op : Op) : Prop :=
  match op with
  | OpCreateTask insertTask _ =>
      truthy (prop insertTask "priority") = false
      ∨ validPriority (prop insertTask "priority")
  | OpUpdateTask _ updates =>
      ∀ v, ownProps updates !! "priority" = Some v → validPriority v
  | _ => True
  end.

(** Three creations, then an update of the second record whose payload
    sets [createdAt] to a number beyond the range of [Date]. *)
Definition unsortedOps : list Op :=
  [ OpCreateTask ∅ 1; OpCreateTask ∅ 1; OpCreateTask ∅ 2;
    OpUpdateTask 2 (VObj {[ "createdAt" := VNum 10000000000000000 ]}) ].

(** A request body that carries an [id] and a [createdAt] with an own
    [toString], which has no primitive form. *)
Definition unreadablePayload : value :=
  VObj {[ "id" := VNum 42; "createdAt" := VObj {[ "toString" := VNum 1 ]} ]}.

(** A creation without priority, then an update whose payload sets a
    priority outside the three. *)
Definition urgentOps : list Op :=
  [ OpCreateTask {[ "description" := VStr "Ship the landing page";
                    "assignee" := VStr "Aman";
                    "deadline" := VStr "by 10pm tomorrow" ]} 0;
    OpUpdateTask 1 (VObj {[ "priority" := VStr "urgent" ]}) ].

(** A string that is not empty. *)
Definition isNonEmptyString (v : value) : bool :=
  match v with
  | VStr s => negb (String.eqb s "")
  | _ => false
  end.

(** The records that the [createTask] calls of a run returned. *)
Definition createdTasks (rs : list Reply) : list object :=
  omap (λ r, match r with Created t => Some t | _ => None end) rs.

(** One [createTask] per validated candidate, the [k]-th of them at the
    clock's [k]-th reading. *)
Definition creations (clock : nat → Z) (validated : list object) : list Op :=
  imap (λ k v, OpCreateTask v (clock k)) validated.

(** Modelled from the spec: [insertTaskSchema] of [@shared/schema], which is
    not among the sources.  Spec, data model: [description], [assignee] and
    [deadline] are text, [priority] defaults to P3 when unspecified.  The
    model accepts an object whose three text fields are strings and whose
    priority is a string or absent, and returns these fields.  It serves as
    an instance where a schema is needed; the theorems hold for every
    schema. *)
Definition insertTaskSchema_model (data : object) : completion object :=
  match prop data "description", prop data "assignee", prop data "deadline" with
  | VStr d, VStr a, VStr dl =>
      let fields : object :=
        {[ "description" := VStr d; "assignee" := VStr a; "deadline" := VStr dl ]} in
      match data !! "priority" with
      | None => Return fields
      | Some (VStr p) => Return (<["priority" := VStr p]> fields)
      | Some _ => Throw "Expected string"
      end
  | _, _, _ => Throw "Expected string"
  end.

(** Modelled from the spec: [transcriptProcessSchema] of [@shared/schema],
    which is not among the sources.  Spec, external interfaces: the request
    is [{transcript: string}]. *)
Definition transcriptProcessSchema_model (reqBody : value) : completion string :=
  match reqBody with
  | VObj o => match prop o "transcript" with
              | VStr t => Return t
              | _ => Throw "Expected string"
              end
  | _ => Throw "Expected object"
  end.

(** An upload whose transcription succeeds and whose extraction answers one
    candidate with a number for description. *)
Definition numericDescription : Services :=
  {| transcribeAudio := λ _ _, Return "Aman, take item five by Friday";
     completions := λ _,
       Parsed (VObj {[ "tasks" :=
         VArr [VObj {[ "description" := VNum 5; "assignee" := VStr "Aman";
                       "deadline" := VStr "Friday" ]}] ]});
     clock := λ _, 0%Z |}.

(** The spec's example: two complete candidates and, between them, one
    without assignee. *)
Definition landingPage : Services :=
  {| transcribeAudio := λ _ _, Return "Aman, take the landing page by 10pm tomorrow.";
     completions := λ _,
       Parsed (VObj {[ "tasks" :=
         VArr [VObj {[ "description" := VStr "Take the landing page";
                       "assignee" := VStr "Aman";
                       "deadline" := VStr "by 10pm tomorrow" ]};
               VObj {[ "description" := VStr "Book the room";
                       "deadline" := VStr "today" ]};
               VObj {[ "description" := VStr "Client follow-up";
                       "assignee" := VStr "Rajiv";
                       "deadline" := VStr "by Wednesday";
                       "priority" := VStr "P1" ]}] ]});
     clock := λ k, (1000 + Z.of_nat k)%Z |}.

(** A transcript that is empty or consists of white space only. *)
Definition whitespaceOnly (s : string) : Prop :=
  Forall (λ c, isWhiteSpace c = true) (String.list_ascii_of_string s).

(** An upload whose transcription is two spaces and a line feed, while the
    language model would answer with complete candidates. *)
Definition silence : Services :=
  {| transcribeAudio := λ _ _, Return ("  " +:+ newline);
     completions := completions landingPage;
     clock := clock landingPage |}.

(** [null] or [undefined] *)
Definition isNullish (v : value) : bool :=
  match v with
  | VUndefined | VNull => true
  | _ => false
  end.

(** The two payload shapes of the extraction contract: a list, or an object
    with a list under the key [tasks]. *)
Definition acceptedShape (result : value) : Prop :=
  (∃ items, result = VArr items)
  ∨ (∃ o items, result = VObj o ∧ o !! "tasks" = Some (VArr items)).

(** What [v.k] reads on a value that is neither [null] nor [undefined]. *)
Definition propertyOf (v : value) (k : string) : value :=
  match v with
  | VObj o => prop o k
  | _ => VUndefined
  end.

(** The candidate made from a list item: its four fields, a falsy or
    missing one replaced by the default. *)
Definition candidateOf (item : value) : object :=
  {[ "description" := js_or (propertyOf item "description") (VStr "");
     "assignee" := js_or (propertyOf item "assignee") (VStr "");
     "deadline" := js_or (propertyOf item "deadline") (VStr "");
     "priority" := js_or (propertyOf item "priority") (VStr "P3") ]}.

(** [ExtractionFailed] wrapping a message. *)
Definition ExtractionFailed {A} (message : string) : completion A :=
  Throw ("Failed to process transcript with AI: " +:+ message).

(** A conversion in which [ffmpeg] writes part of the output and then exits
    with code 1. *)
Definition brokenStream : Conversion :=
  {| writeFails := false;
     ffmpeg := Closed (Some 1%Z) "Conversion failed!" (Some "ID3");
     readFails := false |}.

(** Two task lists that differ and export to the same text: the first has a
    quote, a comma and a quote inside its description, the second inside its
    assignee. *)
Definition quoteInDescription : list Task :=
  [ {| description := "x" +:+ dquote +:+ "," +:+ dquote +:+ "y";
       assignee := "z"; deadline := "Friday"; priority := "P3" |} ].

Definition quoteInAssignee : list Task :=
  [ {| description := "x";
       assignee := "y" +:+ dquote +:+ "," +:+ dquote +:+ "z";
       deadline := "Friday"; priority := "P3" |} ].

(** The keys of the task map, in insertion order. *)
Definition taskKeys (st : MemStorage) : list Z := (tasks st).*1.

(** The store's keys are in order: they increase in insertion order, and
    each lies from 1 up to, but not at, the counter. *)
Definition wellKeyed (st : MemStorage) : Prop :=
  StronglySorted Z.lt (taskKeys st)
  ∧ Forall (λ k, (1 ≤ k < currentTaskId st)%Z) (taskKeys st).

(** client/src/components/task-card.tsx, [handleSave]: the payload of
    [onTaskUpdate(task.id, editForm)] is the edit form, an object with the
    four editable fields. *)
Definition editForm (description assignee deadline priority : string) : value :=
  VObj {[ "description" := VStr description; "assignee" := VStr assignee;
          "deadline" := VStr deadline; "priority" := VStr priority ]}.

(* ===================================================================== *)
(** ** server/openai.ts: [transcribeAudio]; server/routes.ts: the upload
    filter; client/src/components/transcript-input.tsx: the file check *)
(* ===================================================================== *)

(** The letter case a regular expression with the flag [i] ignores: among
    the code units below 256 only the letters A to Z fold onto the pattern's
    letters. *)
Definition toLowerAscii (c : Ascii.ascii) : Ascii.ascii :=
  let n := Ascii.nat_of_ascii c in
  if (65 <=? n) && (n <=? 90) then Ascii.ascii_of_nat (n + 32) else c.

Fixpoint lowercase (s : string) : string :=
  match s with
  | EmptyString => EmptyString
  | String c s' => String (toLowerAscii c) (lowercase s')
  end.

(** [s.endsWith(suffix)] *)
Definition endsWith (suffix s : string) : bool :=
  String.prefix (String.rev suffix) (String.rev s).

Definition audioExtensions : list string := [".mp3"; ".wav"; ".m4a"].
Definition videoExtensions : list string := [".mp4"; ".avi"; ".mov"; ".webm"].

(** [name.match(/\.(e1|e2|...)$/i)]: the extension found at the end of the
    name, in lower case, or [None] for [null]. *)
Definition matchExtension (extensions : list string) (name : string) : option string :=
  List.find (λ ext, endsWith ext (lowercase name)) extensions.

(** [filename.replace(/\.(mp4|avi|mov|webm)$/i, '.mp3')] *)
Definition replaceVideoExtension (filename : string) : string :=
  match matchExtension videoExtensions filename with
  | Some ext =>
      String.substring 0 (String.length filename - String.length ext) filename +:+ ".mp3"
  | None => filename
  end.

(** The [type] given to the [File]: [endsWith] compares letter case. *)
Definition contentType (processedFilename : string) : string :=
  if endsWith ".mp3" processedFilename then "audio/mp3"
  else if endsWith ".wav" processedFilename then "audio/wav"
  else if endsWith ".m4a" processedFilename then "audio/m4a"
  else "audio/mpeg".

(** [new File([bits], name, { type })] *)
Record AudioFile : Type := { fileBits : string; fileName : string; fileType : string }.

Module OpenAI.
(** [transcribeAudio(audioBuffer, filename)].  [transcriptions_create] is the
    speech-to-text request: it returns [transcription.text] or throws.  The
    result is the transcript, or the error thrown, and the scratch directory
    afterwards. *)
Definition transcribeAudio (transcriptions_create : AudioFile → completion string)
    (env : Conversion) (now1 now2 : Z) (audioBuffer filename : string)
    (fs : gmap string string) : completion string * gmap string string :=
  match matchExtension videoExtensions filename with
  | Some _ =>
      match extractAudioFromVideo env now1 now2 audioBuffer filename fs with
      | (Throw m, fs') => (Throw ("Failed to transcribe audio: " +:+ m), fs')
      | (Return processedAudioBuffer, fs') =>
          let processedFilename := replaceVideoExtension filename in
          (rethrow "Failed to transcribe audio: "
             (transcriptions_create
                {| fileBits := processedAudioBuffer; fileName := processedFilename;
                   fileType := contentType processedFilename |}), fs')
      end
  | None =>
      (rethrow "Failed to transcribe audio: "
         (transcriptions_create
            {| fileBits := audioBuffer; fileName := filename;
               fileType := contentType filename |}), fs)
  end.
End OpenAI.

Definition allowedAudioTypes : list string :=
  ["audio/mp3"; "audio/mpeg"; "audio/wav"; "audio/m4a"].
Definition allowedVideoTypes : list string :=
  ["video/mp4"; "video/avi"; "video/mov"; "video/quicktime"; "video/webm"].

(** [types.includes(type)] *)
Definition includesType (types : list string) (type : string) : bool :=
  existsb (String.eqb type) types.

(** The [fileFilter] of the upload: [Return true] is [cb(null, true)],
    [Throw] is [cb(new Error(...))]. *)
Definition fileFilter (mimetype originalname : string) : completion bool :=
  let isAudio := includesType allowedAudioTypes mimetype
                 || bool_decide (is_Some (matchExtension audioExtensions originalname)) in
  let isVideo := includesType allowedVideoTypes mimetype
                 || bool_decide (is_Some (matchExtension videoExtensions originalname)) in
  if isAudio || isVideo then Return true
  else Throw "Only audio files (MP3, WAV, M4A) and video files (MP4, AVI, MOV, WEBM) are allowed".

(** What [handleFileSelect] does with a chosen file: it keeps it
    ([setSelectedFile]) or shows a notice with a title. *)
Inductive Selection : Type :=
  | Selected
  | Refused (title : string).

(** [handleFileSelect], for a file of the given size in bytes, type and
    name. *)
Definition handleFileSelect (size : Z) (type name : string) : Selection :=
  if decide (250 * 1024 * 1024 < size)%Z then Refused "File too large"
  else
    let isValidType :=
      includesType allowedAudioTypes type
      || includesType allowedVideoTypes type
      || bool_decide (is_Some (matchExtension (audioExtensions ++ videoExtensions) name)) in
    if isValidType then Selected else Refused "Invalid file type".

(** A language model that answers three complete candidates, the second
    with a number for priority. *)
Definition numericPriority : Services :=
  {| transcribeAudio := λ _ _, Return "Mia books the room, Aman sends the notes, Rajiv calls the client";
     completions := λ _,
       Parsed (VArr [VObj {[ "description" := VStr "Book the room";
                             "assignee" := VStr "Mia";
                             "deadline" := VStr "today" ]};
                     VObj {[ "description" := VStr "Send the notes";
                             "assignee" := VStr "Aman";
                             "deadline" := VStr "Friday";
                             "priority" := VNum 1 ]};
                     VObj {[ "description" := VStr "Call the client";
                             "assignee" := VStr "Rajiv";
                             "deadline" := VStr "Monday" ]}]);
     clock := λ k, (5000 + Z.of_nat k)%Z |}.

(** client/src/components/transcript-input.tsx, [handleExtract]: what the
    component sends.  [PostTranscript body] is
    [apiRequest('POST', '/api/process-transcript', { transcript })] of the
    hook, [PostAudio file] the upload of the selected file; [None] is the
    notice shown instead of a request. *)
Inductive InputMethod : Type := TextInput | AudioInput.

Inductive Sent (File : Type) : Type :=
  | PostTranscript (body : value)
  | PostAudio (file : File).

Arguments PostTranscript {File} body.
Arguments PostAudio {File} file.

Definition handleExtract {File : Type} (inputMethod : InputMethod) (transcript : string)
    (selectedFile : option File) : option (Sent File) :=
  match inputMethod with
  | TextInput =>
      if String.eqb (trim transcript) "" then None
      else Some (PostTranscript (VObj {[ "transcript" := VStr transcript ]}))
  | AudioInput =>
      match selectedFile with
      | None => None
      | Some file => Some (PostAudio file)
      end
  end.

(** Whether a character occurs in a string. *)
Fixpoint occurs (c : Ascii.ascii) (s : string) : bool :=
  match s with
  | EmptyString => false
  | String x rest => Ascii.eqb x c || occurs c rest
  end.

(** A task whose fields hold no line feed and whose quoted fields hold no
    double quote. *)
Definition plainFields (task : Task) : bool :=
  negb (occurs (Ascii.ascii_of_nat 34) (description task))
  && negb (occurs (Ascii.ascii_of_nat 34) (assignee task))
  && negb (occurs (Ascii.ascii_of_nat 34) (deadline task))
  && negb (occurs (Ascii.ascii_of_nat 10) (description task))
  && negb (occurs (Ascii.ascii_of_nat 10) (assignee task))
  && negb (occurs (Ascii.ascii_of_nat 10) (deadline task))
  && negb (occurs (Ascii.ascii_of_nat 10) (priority task)).

(** Two task lists that differ only in where a comma stands. *)
Definition commaInDescription : list Task :=
  [ {| description := "x,y"; assignee := "z"; deadline := "Friday"; priority := "P3" |} ].

Definition commaInAssignee : list Task :=
  [ {| description := "x"; assignee := "y,z"; deadline := "Friday"; priority := "P3" |} ].

(* ===================================================================== *)
(** * Properties *)
(* ===================================================================== *)

(** ** The definitions at work *)

Example createTask_after_deleteTask :
  issuedIds (run MemStorage_new
               [OpCreateTask ∅ 10; OpDeleteTask 1; OpCreateTask ∅ 11;
                OpClearAllTasks; OpCreateTask ∅ 12]).1
  = [VNum 1; VNum 2; VNum 3].
Proof. reflexivity. Qed.

Example getAllTasks_lists_newest_first :
  (λ listed : list object, (λ t, prop t "id") <$> listed) <$>
    getAllTasks (λ _, None)
      (reached [OpCreateTask ∅ 10; OpCreateTask ∅ 30; OpCreateTask ∅ 20;
                OpCreateTask ∅ 30])
  = Return [VNum 2; VNum 4; VNum 3; VNum 1].
Proof. reflexivity. Qed.

Example extractTasksFromTranscript_object :
  extractTasksFromTranscript
    (Parsed (VObj {[ "tasks" := VArr [VObj {[ "description" := VStr "Review the deck";
                                             "assignee" := VStr "Shreya" ]}] ]}))
  = Return [ {[ "description" := VStr "Review the deck"; "assignee" := VStr "Shreya";
                "deadline" := VStr ""; "priority" := VStr "P3" ]} ].
Proof. reflexivity. Qed.

Example extractTasksFromTranscript_list :
  extractTasksFromTranscript
    (Parsed (VArr [VObj {[ "description" := VStr "Review the deck";
                           "assignee" := VStr "Shreya";
                           "deadline" := VStr "tonight";
                           "priority" := VStr "P2" ]}]))
  = Return [ {[ "description" := VStr "Review the deck"; "assignee" := VStr "Shreya";
                "deadline" := VStr "tonight"; "priority" := VStr "P2" ]} ].
Proof. reflexivity. Qed.

Example extractTasksFromTranscript_null :
  extractTasksFromTranscript (Parsed VNull)
  = Throw "Failed to process transcript with AI: Cannot read properties of null (reading 'tasks')".
Proof. reflexivity. Qed.

Example trim_transcript : trim ("  by Friday " +:+ newline) = "by Friday".
Proof. reflexivity. Qed.

Example transcriptFailure_of_extraction :
  transcriptFailure "Failed to process transcript with AI: Incorrect API key provided"
  = messageOnly 502
      "AI service is currently unavailable. Please check your API key and try again.".
Proof. reflexivity. Qed.

Example exportToCSV_plain :
  exportToCSV [ {| description := "Take the landing page"; assignee := "Aman";
                   deadline := "by 10pm, tomorrow"; priority := "P3" |} ]
  = Some ("Task,Assigned To,Due Date/Time,Priority" +:+ newline
          +:+ quoted "Take the landing page" +:+ "," +:+ quoted "Aman" +:+ ","
          +:+ quoted "by 10pm, tomorrow" +:+ ",P3").
Proof. reflexivity. Qed.

Example exportToCSV_nothing : exportToCSV [] = None.
Proof. reflexivity. Qed.

(** ** The [Map] model *)

Section Map_facts.
Context {V : Type}.
Implicit Types (m : list (Z * V)) (k : Z) (v : V).

Lemma Map_get_set_eq k v m : Map_get k (Map_set k v m) = Some v.
Proof.
  induction m as [|[k' v'] m IH]; simpl.
  - by rewrite decide_True.
  - destruct (decide (k' = k)) as [->|Hne]; simpl.
    + by rewrite decide_True.
    + by rewrite decide_False.
Qed.

Lemma Map_get_set_ne k k' v m : k ≠ k' → Map_get k' (Map_set k v m) = Map_get k' m.
Proof.
  intros Hne. induction m as [|[k0 v0] m IH]; simpl.
  - by rewrite decide_False.
  - destruct (decide (k0 = k)) as [->|Hk0]; simpl.
    + by rewrite !decide_False.
    + destruct (decide (k0 = k')); [done | apply IH].
Qed.

Lemma Map_delete_absent k m : Map_get k m = None → Map_delete k m = (false, m).
Proof.
  induction m as [|[k' v'] m IH]; simpl; [done|].
  destruct (decide (k' = k)); [done|].
  intros Hget. by rewrite (IH Hget).
Qed.

Lemma Map_values_set k v m : v ∈ Map_values (Map_set k v m).
Proof.
  unfold Map_values. induction m as [|[k' v'] m IH]; simpl.
  - apply list_elem_of_here.
  - destruct (decide (k' = k)); simpl; [apply list_elem_of_here|].
    by apply list_elem_of_further.
Qed.

(** A property of all stored values survives [set] with a value that has
    it, and survives [delete]. *)
Lemma Map_values_set_Forall (P : V → Prop) k v m :
  P v → Forall P (Map_values m) → Forall P (Map_values (Map_set k v m)).
Proof.
  unfold Map_values. intros Hv. induction m as [|[k' v'] m IH]; simpl.
  - intros _. by constructor.
  - intros [Hv' Hm]%Forall_cons. destruct (decide (k' = k)); simpl.
    + by constructor.
    + constructor; [done | by apply IH].
Qed.

Lemma Map_values_delete_Forall (P : V → Prop) k m :
  Forall P (Map_values m) → Forall P (Map_values (Map_delete k m).2).
Proof.
  unfold Map_values. induction m as [|[k' v'] m IH]; simpl; [done|].
  intros [Hv' Hm]%Forall_cons. destruct (decide (k' = k)); simpl; [done|].
  specialize (IH Hm). destruct (Map_delete k m) as [b m'']; simpl in *.
  by constructor.
Qed.

Lemma Map_get_Some_values k v m : Map_get k m = Some v → v ∈ Map_values m.
Proof.
  unfold Map_values. induction m as [|[k' v'] m IH]; simpl; [done|].
  destruct (decide (k' = k)).
  - intros [= ->]. apply list_elem_of_here.
  - intros Hget. apply list_elem_of_further. by apply IH.
Qed.
End Map_facts.

(** ** [Array.prototype.sort]: what it returns, and when it throws *)

Section sort_facts.
Context {A : Type} (comparefn : A → A → completion (option Z)).

Lemma sort_insert_Permutation (x : A) (l sorted : list A) :
  sort_insert comparefn x l = Return sorted → sorted ≡ₚ x :: l.
Proof.
  revert sorted. induction l as [|y l IH]; intros sorted; cbn [sort_insert].
  - by intros [= <-].
  - destruct (sortsAfter comparefn x y) as [[|]|m]; simpl; [|by intros [= <-]|done].
    destruct (sort_insert comparefn x l) as [inserted|m]; simpl; [|done].
    intros [= <-]. rewrite (IH inserted eq_refl). apply Permutation_swap.
Qed.

Lemma Array_sort_Permutation (l sorted : list A) :
  Array_sort comparefn l = Return sorted → sorted ≡ₚ l.
Proof.
  revert sorted. induction l as [|x l IH]; intros sorted; cbn [Array_sort].
  - by intros [= <-].
  - destruct (Array_sort comparefn l) as [rest|m]; simpl; [|done].
    intros Hinsert%sort_insert_Permutation. by rewrite Hinsert, (IH rest eq_refl).
Qed.

(** The sort returns when no call of the comparator on two of the elements
    throws. *)
Lemma sort_insert_Return (x : A) (l : list A) :
  (∀ y, y ∈ l → ∃ v, comparefn x y = Return v) →
  ∃ sorted, sort_insert comparefn x l = Return sorted.
Proof.
  induction l as [|y l IH]; intros Hcalls; cbn [sort_insert]; [by eexists|].
  destruct (Hcalls y) as [v Hv]; [apply list_elem_of_here|].
  unfold sortsAfter. rewrite Hv. simpl.
  destruct (match v with Some v0 => bool_decide (0 < v0)%Z | None => false end);
    [|by eexists].
  destruct IH as [inserted ->]; [|by eexists].
  intros z Hz. apply Hcalls. by apply list_elem_of_further.
Qed.

Lemma Array_sort_Return (l : list A) :
  (∀ a b, a ∈ l → b ∈ l → ∃ v, comparefn a b = Return v) →
  ∃ sorted, Array_sort comparefn l = Return sorted.
Proof.
  induction l as [|x l IH]; intros Hcalls; cbn [Array_sort]; [by eexists|].
  destruct IH as [rest Hrest].
  { intros a b Ha Hb. apply Hcalls; by apply list_elem_of_further. }
  rewrite Hrest. simpl. apply sort_insert_Return.
  intros y Hy. apply Hcalls; [apply list_elem_of_here|].
  apply list_elem_of_further. by rewrite <- (Array_sort_Permutation l rest Hrest).
Qed.

(** The sort of two or more elements throws when the comparator throws on
    every pair that holds a given element. *)
Lemma Array_sort_Throw (bad : A → Prop) (l : list A) :
  (∀ a b, bad a ∨ bad b → ∃ m, comparefn a b = Throw m) →
  2 ≤ length l → Exists bad l →
  ∃ m, Array_sort comparefn l = Throw m.
Proof.
  intros Hbad. induction l as [|x l IH]; intros Hlen Hex; [simpl in Hlen; lia|].
  cbn [Array_sort].
  destruct (Array_sort comparefn l) as [rest|m] eqn:Hrest; [|by eexists].
  pose proof (Array_sort_Permutation l rest Hrest) as Hperm.
  destruct rest as [|y rest].
  { apply Permutation_nil_l in Hperm. subst l. simpl in Hlen. lia. }
  simpl. unfold sortsAfter.
  assert (Hpair : bad x ∨ bad y).
  { apply Exists_cons in Hex as [Hx|Hl]; [by left|]. right.
    destruct rest as [|z rest].
    - apply Permutation_singleton_l in Hperm. subst l.
      by apply Exists_cons in Hl as [Hy|?%Exists_nil].
    - destruct IH as [m Hm]; [|done|congruence].
      rewrite <- Hperm. simpl. lia. }
  destruct (Hbad x y Hpair) as [m ->]. by eexists.
Qed.
End sort_facts.

(** ** Reading [createdAt] *)

Section getTime_facts.
Context (Date_parse : value → option Z).

Lemma getTime_Return (v : value) :
  ToPrimitive_throws v = false → ∃ t, getTime Date_parse v = Return t.
Proof. intros Hv. destruct v; simpl in *; try by eexists. all: rewrite Hv; by eexists. Qed.

Lemma getTime_Throw (v : value) :
  ToPrimitive_throws v = true →
  getTime Date_parse v = Throw "Cannot convert object to primitive value".
Proof. intros Hv. destruct v; simpl in *; try done. all: by rewrite Hv. Qed.

Lemma byCreatedAtDesc_Return (a b : object) :
  readable a = true → readable b = true →
  ∃ v, byCreatedAtDesc Date_parse a b = Return v.
Proof.
  unfold readable, byCreatedAtDesc. intros Ha%negb_true_iff Hb%negb_true_iff.
  destruct (getTime_Return _ Ha) as [ta ->], (getTime_Return _ Hb) as [tb ->].
  by eexists.
Qed.

Lemma byCreatedAtDesc_Throw (a b : object) :
  readable a = false ∨ readable b = false →
  ∃ m, byCreatedAtDesc Date_parse a b = Throw m.
Proof.
  unfold readable, byCreatedAtDesc. rewrite !negb_false_iff. intros Hab.
  destruct (ToPrimitive_throws (prop b "createdAt")) eqn:Hb.
  - rewrite (getTime_Throw _ Hb). by eexists.
  - destruct (getTime_Return _ Hb) as [tb ->]. simpl.
    destruct Hab as [Ha|Hb']; [|congruence].
    rewrite (getTime_Throw _ Ha). by eexists.
Qed.

(** [getAllTasks] returns when every stored [createdAt] can be read, and
    what it returns are the stored records. *)
Lemma getAllTasks_Return (st : MemStorage) :
  Forall (λ r, readable r = true) (Map_values (tasks st)) →
  ∃ listed, getAllTasks Date_parse st = Return listed.
Proof.
  intros Hall. apply Array_sort_Return. intros a b Ha Hb.
  rewrite Forall_forall in Hall. apply byCreatedAtDesc_Return; by apply Hall.
Qed.

Lemma getAllTasks_Permutation (st : MemStorage) (listed : list object) :
  getAllTasks Date_parse st = Return listed → listed ≡ₚ Map_values (tasks st).
Proof. apply Array_sort_Permutation. Qed.

Lemma getAllTasks_Throw (st : MemStorage) :
  2 ≤ length (tasks st) → Exists (λ r, readable r = false) (Map_values (tasks st)) →
  ∃ m, getAllTasks Date_parse st = Throw m.
Proof.
  intros Hlen Hex.
  apply (Array_sort_Throw _ (λ r, readable r = false)); [| |done].
  - intros a b. apply byCreatedAtDesc_Throw.
  - unfold Map_values. by rewrite length_fmap.
Qed.
End getTime_facts.

(** ** What [createTask] stores *)

Lemma createTask_id (insertTask : object) (now : Z) (st : MemStorage) :
  prop (createTask insertTask now st).1 "id" = VNum (currentTaskId st).
Proof.
  unfold createTask, prop; simpl.
  rewrite lookup_insert_ne by done. rewrite lookup_insert_ne by done.
  by rewrite lookup_insert_eq.
Qed.

Lemma createTask_counter (insertTask : object) (now : Z) (st : MemStorage) :
  currentTaskId (createTask insertTask now st).2 = (currentTaskId st + 1)%Z.
Proof. done. Qed.

Lemma issuedIds_cons (r : Reply) (rs : list Reply) :
  issuedIds (r :: rs) = issuedIds [r] ++ issuedIds rs.
Proof. by destruct r. Qed.

(** One call issues the current counter and advances it, or issues nothing
    and leaves the counter alone. *)
Lemma step_issuedIds (st : MemStorage) (op : Op) :
  (issuedIds [(step st op).1] = [VNum (currentTaskId st)]
   ∧ currentTaskId (step st op).2 = (currentTaskId st + 1)%Z)
  ∨ (issuedIds [(step st op).1] = []
     ∧ currentTaskId (step st op).2 = currentTaskId st).
Proof.
  destruct op as [insertTask now | id updates | id |]; cbn [step].
  - left. rewrite (surjective_pairing (createTask insertTask now st)).
    cbn [fst snd issuedIds omap list_omap]. by rewrite createTask_id.
  - right. unfold updateTask. by destruct (Map_get id (tasks st)).
  - right. unfold deleteTask. by destruct (Map_delete id (tasks st)).
  - right. done.
Qed.

(** The ids issued along a run count up from the counter the run starts
    with, whatever else the run does. *)
Lemma run_issuedIds (ops : list Op) (st : MemStorage) :
  let n := length (issuedIds (run st ops).1) in
  issuedIds (run st ops).1
    = (λ k, VNum (currentTaskId st + Z.of_nat k)) <$> seq 0 n
  ∧ currentTaskId (run st ops).2 = (currentTaskId st + Z.of_nat n)%Z.
Proof.
  revert st. induction ops as [|op ops IH]; intros st; cbn [run].
  - simpl. split; [done | lia].
  - pose proof (step_issuedIds st op) as Hstep.
    destruct (step st op) as [r st']. specialize (IH st').
    destruct (run st' ops) as [rs st'']. cbn [fst snd] in *.
    destruct IH as [IHids IHctr].
    rewrite issuedIds_cons.
    destruct Hstep as [[-> Hctr] | [-> Hctr]]; rewrite Hctr in *; cbn [app length].
    + split; [|lia]. cbn [seq fmap list_fmap]. f_equal; [f_equal; lia|].
      rewrite IHids at 1. rewrite <- fmap_S_seq, <- list_fmap_compose.
      apply list_fmap_ext. intros _ k _. simpl. f_equal. lia.
    + by split.
Qed.

(** C1.  On a fresh store, whatever sequence of [createTask], [updateTask],
    [deleteTask] and [clearAllTasks] calls has run: the ids [createTask]
    returned are 1, 2, 3, ... in call order, they are pairwise distinct, and
    the next [createTask] returns the next integer, which is none of the ids
    issued before, also when the records that held them were deleted or
    cleared in between. *)
Theorem createTask_ids_never_reused (ops : list Op) (insertTask : object) (now : Z) :
  let issued := issuedIds (run MemStorage_new ops).1 in
  issued = (λ k, VNum (Z.of_nat k)) <$> seq 1 (length issued)
  ∧ NoDup issued
  ∧ prop (createTask insertTask now (reached ops)).1 "id"
      = VNum (Z.of_nat (S (length issued)))
  ∧ prop (createTask insertTask now (reached ops)).1 "id" ∉ issued.
Proof.
  intros issued.
  destruct (run_issuedIds ops MemStorage_new) as [Hids Hctr]. simpl in Hids, Hctr.
  fold issued in Hids, Hctr.
  assert (Hseq : issued = (λ k, VNum (Z.of_nat k)) <$> seq 1 (length issued)).
  { rewrite Hids at 1. rewrite <- fmap_S_seq, <- list_fmap_compose.
    apply list_fmap_ext. intros _ k _. simpl. f_equal. lia. }
  assert (Hnext : prop (createTask insertTask now (reached ops)).1 "id"
                  = VNum (Z.of_nat (S (length issued)))).
  { rewrite createTask_id. unfold reached. rewrite Hctr. f_equal. lia. }
  split_and!; [done | | done |].
  - rewrite Hseq. apply NoDup_fmap_2; [|apply NoDup_seq].
    intros a b Hab. injection Hab. lia.
  - rewrite Hnext. remember (length issued) as n eqn:Hn.
    rewrite Hseq. intros (k & Hk & Hin)%list_elem_of_fmap.
    injection Hk as Hk. apply elem_of_seq in Hin. lia.
Qed.

(** ** [updateTask] *)

(** C8.  When no record is stored under [id], [updateTask(id, updates)]
    returns the not-found signal [null] and the store is the one it was: the
    same records with the same contents, and the same counters; the [PUT]
    handler then answers 404 and leaves the store alone too. *)
Theorem updateTask_missing_id (id : Z) (updates : value) (st : MemStorage) :
  Map_get id (tasks st) = None →
  updateTask id updates st = (None, st)
  ∧ handlePutTask (Some id) updates st = (messageOnly 404 "Task not found", st).
Proof.
  intros Hget. unfold handlePutTask, updateTask. by rewrite Hget.
Qed.

Lemma updateTask_missing_id_witness :
  Map_get 7 (tasks (reached [OpCreateTask {[ "description" := VStr "Book the room" ]} 0;
                             OpCreateTask {[ "description" := VStr "Send the notes" ]} 1]))
  = None
  ∧ (λ t, prop t "description") <$>
      Map_values (tasks (reached
        [OpCreateTask {[ "description" := VStr "Book the room" ]} 0;
         OpCreateTask {[ "description" := VStr "Send the notes" ]} 1]))
    = [VStr "Book the room"; VStr "Send the notes"]
  ∧ updateTask 7 (VObj {[ "priority" := VStr "P1" ]})
      (reached [OpCreateTask {[ "description" := VStr "Book the room" ]} 0;
                OpCreateTask {[ "description" := VStr "Send the notes" ]} 1])
    = (None, reached [OpCreateTask {[ "description" := VStr "Book the room" ]} 0;
                      OpCreateTask {[ "description" := VStr "Send the notes" ]} 1])
  ∧ handlePutTask (Some 7%Z) (VObj {[ "priority" := VStr "P1" ]})
      (reached [OpCreateTask {[ "description" := VStr "Book the room" ]} 0;
                OpCreateTask {[ "description" := VStr "Send the notes" ]} 1])
    = (messageOnly 404 "Task not found",
       reached [OpCreateTask {[ "description" := VStr "Book the room" ]} 0;
                OpCreateTask {[ "description" := VStr "Send the notes" ]} 1]).
Proof.
  split; [reflexivity|]. split; [reflexivity|].
  apply (updateTask_missing_id 7 (VObj {[ "priority" := VStr "P1" ]})
           (reached [OpCreateTask {[ "description" := VStr "Book the room" ]} 0;
                     OpCreateTask {[ "description" := VStr "Send the notes" ]} 1])).
  reflexivity.
Defined.

(** C10, as the code has it.  For a record stored under [i] and an update
    payload that carries an [id] property [j] other than [i]:
    [updateTask(i, payload)] returns a record whose [id] field is [j], and
    that record is stored under the key [i].  It is listed by [getAllTasks]
    whenever [getAllTasks] returns, which it does when every [createdAt]
    then stored can be read.  When no record is stored under [j],
    [deleteTask(j)] and [updateTask(j, ...)] report not-found and change
    nothing. *)
Theorem updateTask_overwrites_id (i j : Z) (payload : value) (existing : object)
    (st : MemStorage) :
  Map_get i (tasks st) = Some existing →
  ownProps payload !! "id" = Some (VNum j) →
  j ≠ i →
  ∃ updated st',
    updateTask i payload st = (Some updated, st')
    ∧ prop updated "id" = VNum j
    ∧ Map_get i (tasks st') = Some updated
    ∧ (∀ Date_parse listed,
         getAllTasks Date_parse st' = Return listed → updated ∈ listed)
    ∧ (∀ Date_parse,
         Forall (λ r, readable r = true) (Map_values (tasks st')) →
         ∃ listed, getAllTasks Date_parse st' = Return listed ∧ updated ∈ listed)
    ∧ (Map_get j (tasks st') = None →
       deleteTask j st' = (false, st')
       ∧ ∀ updates, updateTask j updates st' = (None, st')).
Proof.
  intros Hget Hid Hne. unfold updateTask at 1. rewrite Hget.
  eexists _, _. split; [reflexivity|]. cbn [tasks].
  assert (Hlisted : ∀ Date_parse listed,
            getAllTasks Date_parse
              {| users := users st;
                 tasks := Map_set i (ownProps payload ∪ existing) (tasks st);
                 currentUserId := currentUserId st;
                 currentTaskId := currentTaskId st |} = Return listed →
            ownProps payload ∪ existing ∈ listed).
  { intros Date_parse listed Hperm%getAllTasks_Permutation.
    rewrite Hperm. cbn [tasks]. apply Map_values_set. }
  split_and!.
  - unfold prop. by rewrite (lookup_union_Some_l _ _ _ _ Hid).
  - apply Map_get_set_eq.
  - exact Hlisted.
  - intros Date_parse Hreadable.
    apply (getAllTasks_Return Date_parse
             {| users := users st;
                tasks := Map_set i (ownProps payload ∪ existing) (tasks st);
                currentUserId := currentUserId st;
                currentTaskId := currentTaskId st |}) in Hreadable
      as [listed Hreturned].
    exists listed. split; [done | by apply (Hlisted Date_parse)].
  - intros Hj. split.
    + unfold deleteTask. simpl. rewrite (Map_delete_absent _ _ Hj).
      by destruct st.
    + intros updates. unfold updateTask. simpl. by rewrite Hj.
Qed.

Lemma updateTask_overwrites_id_witness :
  ∃ updated st',
    updateTask 1 (VObj {[ "id" := VNum 42 ]})
      (reached [OpCreateTask ∅ 0; OpCreateTask ∅ 5]) = (Some updated, st')
    ∧ prop updated "id" = VNum 42
    ∧ Map_get 1 (tasks st') = Some updated
    ∧ (λ listed : list object, (λ t, prop t "id") <$> listed) <$>
        getAllTasks (λ _, None) st' = Return [VNum 2; VNum 42]
    ∧ (∃ listed, getAllTasks (λ _, None) st' = Return listed ∧ updated ∈ listed)
    ∧ deleteTask 42 st' = (false, st')
    ∧ updateTask 42 (VObj {[ "priority" := VStr "P1" ]}) st' = (None, st').
Proof.
  destruct (updateTask_overwrites_id 1 42 (VObj {[ "id" := VNum 42 ]})
              (createTask ∅ 0 MemStorage_new).1 (reached [OpCreateTask ∅ 0; OpCreateTask ∅ 5]))
    as (updated & st' & Hupdate & Hid & Hkey & _ & Hlisted & Hmissing).
  - reflexivity.
  - reflexivity.
  - lia.
  - exists updated, st'.
    assert (Hst' : (updateTask 1 (VObj {[ "id" := VNum 42 ]})
                      (reached [OpCreateTask ∅ 0; OpCreateTask ∅ 5])).2 = st')
      by by rewrite Hupdate.
    destruct Hmissing as [Hdelete Hupdate42]; [by rewrite <- Hst'|].
    split_and!; [done | done | done | by rewrite <- Hst' | | done | done].
    apply (Hlisted (λ _, None)). rewrite <- Hst'. repeat constructor.
Defined.

(** C10, as stated, fails.  The [PUT] handler hands the request body to
    [updateTask]; with [unreadablePayload] the record gets the [id] 42 and a
    [createdAt] that has no primitive form.  With a second record stored,
    the comparator of [getAllTasks] throws, whatever [Date.parse] does: the
    record is not listed, and [GET /api/tasks] answers 500. *)
Lemma updateTask_unlisted_counterexample :
  ∃ updated st',
    handlePutTask (Some 1%Z) unreadablePayload (reached [OpCreateTask ∅ 0; OpCreateTask ∅ 5])
    = ({| status := 200; body := VObj updated |}, st')
    ∧ prop updated "id" = VNum 42
    ∧ Map_get 1 (tasks st') = Some updated
    ∧ (∀ Date_parse,
         getAllTasks Date_parse st' = Throw "Cannot convert object to primitive value"
         ∧ handleGetTasks Date_parse st' = messageOnly 500 "Failed to fetch tasks")
    ∧ ¬ ∃ Date_parse listed, getAllTasks Date_parse st' = Return listed ∧ updated ∈ listed.
Proof.
  eexists _, _. split; [reflexivity|].
  assert (Hthrows : ∀ Date_parse,
    getAllTasks Date_parse
      (updateTask 1 unreadablePayload (reached [OpCreateTask ∅ 0; OpCreateTask ∅ 5])).2
    = Throw "Cannot convert object to primitive value")
    by (intros Date_parse; reflexivity).
  split_and!; [reflexivity | reflexivity | |].
  - intros Date_parse. split; [apply Hthrows|].
    unfold handleGetTasks. by rewrite Hthrows.
  - intros (Date_parse & listed & Hreturned & _). by rewrite Hthrows in Hreturned.
Qed.

(** ** Invariants along a run *)

Lemma run_invariant (P : MemStorage → Prop) (Q : Op → Prop) :
  (∀ st op, P st → Q op → P (step st op).2) →
  ∀ ops st, P st → Forall Q ops → P (run st ops).2.
Proof.
  intros Hstep. induction ops as [|op ops IH]; intros st HP HQ; cbn [run]; [done|].
  apply Forall_cons in HQ as [Hop Hops].
  specialize (Hstep st op HP Hop). destruct (step st op) as [r st'].
  specialize (IH st' Hstep Hops). by destruct (run st' ops).
Qed.

(** A property of every stored record is kept by the four operations when
    creation and update store records that have it. *)
Lemma step_tasks_Forall (P : object → Prop) (st : MemStorage) (op : Op) :
  Forall P (Map_values (tasks st)) →
  (∀ insertTask now, op = OpCreateTask insertTask now →
     P (createTask insertTask now st).1) →
  (∀ id updates existing, op = OpUpdateTask id updates →
     Map_get id (tasks st) = Some existing → P existing →
     P (ownProps updates ∪ existing)) →
  Forall P (Map_values (tasks (step st op).2)).
Proof.
  intros Hst Hcreate Hupdate.
  destruct op as [insertTask now | id updates | id |]; cbn [step].
  - rewrite (surjective_pairing (createTask insertTask now st)). cbn [snd].
    apply Map_values_set_Forall; [|done]. by apply (Hcreate insertTask now).
  - unfold updateTask. destruct (Map_get id (tasks st)) as [existing|] eqn:Hget; [|done].
    cbn [snd tasks]. apply Map_values_set_Forall; [|done].
    apply (Hupdate id updates existing); [done..|].
    eapply Forall_forall; [exact Hst|]. by eapply Map_get_Some_values.
  - unfold deleteTask.
    pose proof (Map_values_delete_Forall P id (tasks st) Hst) as Hdel.
    by destruct (Map_delete id (tasks st)).
  - cbn. constructor.
Qed.

(** ** [getAllTasks] *)

Section getAllTasks_facts.
Context (Date_parse : value → option Z).

Abbreviation timed := (λ t : object, is_Some (createdTime Date_parse t)).

Lemma createdTime_getTime (a : object) (t : Z) :
  createdTime Date_parse a = Some t →
  getTime Date_parse (prop a "createdAt") = Return (Some t).
Proof.
  unfold createdTime, timeOf.
  destruct (getTime Date_parse (prop a "createdAt")) as [[t'|]|m]; congruence.
Qed.

Lemma sortsAfter_newer (a b : object) (ta tb : Z) :
  createdTime Date_parse a = Some ta → createdTime Date_parse b = Some tb →
  sortsAfter (byCreatedAtDesc Date_parse) a b = Return (bool_decide (ta < tb)%Z).
Proof.
  intros Ha%createdTime_getTime Hb%createdTime_getTime.
  unfold sortsAfter, byCreatedAtDesc. rewrite Ha, Hb. simpl. f_equal.
  apply bool_decide_ext. lia.
Qed.

Lemma sort_insert_newestFirst (x : object) (l : list object) :
  timed x → Forall timed l → newestFirst Date_parse l →
  ∃ sorted, sort_insert (byCreatedAtDesc Date_parse) x l = Return sorted
            ∧ newestFirst Date_parse sorted.
Proof.
  unfold newestFirst. intros [tx Hx]. induction l as [|y l IH]; cbn [sort_insert].
  - intros _ _. eexists. split; [done|]. repeat constructor.
  - intros [[ty Hy] Hl]%Forall_cons [Hyl Hsorted]%StronglySorted_cons.
    rewrite (sortsAfter_newer x y tx ty Hx Hy). simpl. case_bool_decide as Hlt.
    + destruct (IH Hl Hsorted) as (inserted & Hinserted & Hnewest).
      rewrite Hinserted. simpl. eexists. split; [done|].
      apply StronglySorted_cons. split; [|done].
      rewrite (sort_insert_Permutation _ _ _ _ Hinserted). constructor; [|done].
      exists ty, tx. split_and!; [done..|lia].
    + eexists. split; [done|].
      apply StronglySorted_cons. split; [|by apply StronglySorted_cons].
      constructor; [exists tx, ty; split_and!; [done..|lia]|].
      eapply Forall_impl; [exact Hyl|]. simpl.
      intros z (ty' & tz & Hy' & Hz & Hle). exists tx, tz.
      rewrite Hy in Hy'. injection Hy' as <-. split_and!; [done..|lia].
Qed.

Lemma Array_sort_newestFirst (l : list object) :
  Forall timed l →
  ∃ sorted, Array_sort (byCreatedAtDesc Date_parse) l = Return sorted
            ∧ newestFirst Date_parse sorted.
Proof.
  induction l as [|x l IH]; cbn [Array_sort].
  - intros _. eexists. split; [done|]. constructor.
  - intros [Hx Hl]%Forall_cons.
    destruct (IH Hl) as (rest & Hrest & Hnewest). rewrite Hrest. simpl.
    apply sort_insert_newestFirst; [done| |done].
    by rewrite (Array_sort_Permutation _ _ _ Hrest).
Qed.

(** Every stored [createdAt] stays a time along a run whose updates do not
    replace it by something [Date] cannot read. *)
Lemma step_timed (st : MemStorage) (op : Op) :
  Forall timed (Map_values (tasks st)) → keepsCreatedAt Date_parse op →
  Forall timed (Map_values (tasks (step st op).2)).
Proof.
  intros Hst Hop. apply step_tasks_Forall; [done|..].
  - intros insertTask now _. exists now.
    unfold createdTime, createTask, prop; simpl. by rewrite lookup_insert_eq.
  - intros id updates existing -> _ [t Ht]. simpl in Hop.
    unfold createdTime, prop in *. rewrite lookup_union.
    destruct (ownProps updates !! "createdAt") as [v|] eqn:Hv.
    + destruct (existing !! "createdAt"); simpl; by apply Hop.
    + destruct (existing !! "createdAt"); simpl in *; by eexists.
Qed.

(** C2, as the code has it.  After any sequence of store operations whose
    update payloads leave [createdAt] a time (in particular: carry no
    [createdAt]), [getAllTasks] returns exactly the records currently stored,
    each once, sorted by [createdAt] descending. *)
Theorem getAllTasks_newest_first (ops : list Op) :
  Forall (keepsCreatedAt Date_parse) ops →
  ∃ listed,
    getAllTasks Date_parse (reached ops) = Return listed
    ∧ listed ≡ₚ Map_values (tasks (reached ops))
    ∧ newestFirst Date_parse listed.
Proof.
  intros Hops. unfold getAllTasks.
  destruct (Array_sort_newestFirst (Map_values (tasks (reached ops))))
    as (listed & Hlisted & Hnewest).
  { unfold reached.
    apply (run_invariant (λ st, Forall timed (Map_values (tasks st)))
             (keepsCreatedAt Date_parse)); [|constructor|done].
    intros st op. apply step_timed. }
  exists listed. split_and!; [done | by eapply Array_sort_Permutation | done].
Qed.
End getAllTasks_facts.

Lemma getAllTasks_newest_first_witness :
  Forall (keepsCreatedAt (λ _, None))
    [OpCreateTask ∅ 5; OpCreateTask ∅ 9; OpUpdateTask 1 (VObj {[ "createdAt" := VNum 20 ]})]
  ∧ (λ listed : list object, (λ t, prop t "id") <$> listed) <$>
      getAllTasks (λ _, None)
        (reached [OpCreateTask ∅ 5; OpCreateTask ∅ 9;
                  OpUpdateTask 1 (VObj {[ "createdAt" := VNum 20 ]})])
    = Return [VNum 1; VNum 2]
  ∧ ∃ listed,
      getAllTasks (λ _, None)
        (reached [OpCreateTask ∅ 5; OpCreateTask ∅ 9;
                  OpUpdateTask 1 (VObj {[ "createdAt" := VNum 20 ]})])
      = Return listed
      ∧ listed ≡ₚ Map_values (tasks (reached
                    [OpCreateTask ∅ 5; OpCreateTask ∅ 9;
                     OpUpdateTask 1 (VObj {[ "createdAt" := VNum 20 ]})]))
      ∧ newestFirst (λ _, None) listed.
Proof.
  assert (Hops : Forall (keepsCreatedAt (λ _, None))
            [OpCreateTask ∅ 5; OpCreateTask ∅ 9;
             OpUpdateTask 1 (VObj {[ "createdAt" := VNum 20 ]})]).
  { repeat constructor. intros v Hv. vm_compute in Hv. injection Hv as <-.
    by eexists. }
  split_and!; [exact Hops | reflexivity |].
  exact (getAllTasks_newest_first (λ _, None) _ Hops).
Defined.

(** C2, as stated, fails.  After [unsortedOps] the second record's
    [createdAt] is no time, the comparator answers [NaN] for every pair with
    it, and [sort] leaves the three records in insertion order: the record
    created at time 1 is listed before the one created at time 2.  This
    holds whatever [Date.parse] does. *)
Lemma getAllTasks_unsorted_counterexample :
  (∀ Date_parse,
     (λ listed : list object, createdTime Date_parse <$> listed) <$>
       getAllTasks Date_parse (reached unsortedOps)
     = Return [Some 1%Z; None; Some 2%Z])
  ∧ ¬ ∃ Date_parse listed,
        getAllTasks Date_parse (reached unsortedOps) = Return listed
        ∧ newestFirst Date_parse listed.
Proof.
  assert (Htimes : ∀ Date_parse,
    (λ listed : list object, createdTime Date_parse <$> listed) <$>
      getAllTasks Date_parse (reached unsortedOps)
    = Return [Some 1%Z; None; Some 2%Z]) by (intros Date_parse; reflexivity).
  split; [exact Htimes|]. intros (Date_parse & listed & Hlisted & Hsorted).
  specialize (Htimes Date_parse). rewrite Hlisted in Htimes.
  apply (f_equal (λ c : completion (list (option Z)),
                    match c with Return l => l | Throw _ => [] end)) in Htimes.
  cbn [fmap completion_fmap] in Htimes. unfold newestFirst in Hsorted.
  destruct listed as [|a [|b [|c l]]]; try discriminate Htimes.
  injection Htimes as Ha Hb Hc _.
  apply StronglySorted_cons in Hsorted as [Hfirst _].
  apply Forall_cons in Hfirst as [_ Hfirst].
  apply Forall_cons in Hfirst as [(ta & tc & Hta & Htc & Hle) _].
  rewrite Ha in Hta. rewrite Hc in Htc. injection Hta as <-. injection Htc as <-. lia.
Qed.

(** ** Priorities *)

Lemma prop_union (updates existing : object) (k : string) :
  prop (updates ∪ existing) k
  = match updates !! k with Some v => v | None => prop existing k end.
Proof.
  unfold prop. rewrite lookup_union.
  by destruct (updates !! k), (existing !! k).
Qed.

Lemma createTask_priority (insertTask : object) (now : Z) (st : MemStorage) :
  prop (createTask insertTask now st).1 "priority"
  = js_or (prop insertTask "priority") (VStr "P3").
Proof.
  unfold createTask, prop at 1; simpl.
  rewrite lookup_insert_ne by done. by rewrite lookup_insert_eq.
Qed.

Lemma validPriority_P3 : validPriority (VStr "P3").
Proof. unfold validPriority. repeat constructor. Qed.

Lemma step_validPriority (st : MemStorage) (op : Op) :
  Forall (λ t, validPriority (prop t "priority")) (Map_values (tasks st)) →
  suppliesValidPriority op →
  Forall (λ t, validPriority (prop t "priority")) (Map_values (tasks (step st op).2)).
Proof.
  intros Hst Hop. apply step_tasks_Forall; [done|..].
  - intros insertTask now ->. rewrite createTask_priority. unfold js_or.
    destruct Hop as [Hfalsy | Hvalid].
    + rewrite Hfalsy. apply validPriority_P3.
    + destruct (truthy _); [done | apply validPriority_P3].
  - intros id updates existing -> _ Hexisting. rewrite prop_union.
    destruct (ownProps updates !! "priority") as [v|] eqn:Hv; [|done].
    by apply Hop.
Qed.

(** C4, as the code has it.  The store keeps whatever priority its callers
    supply: [createTask] stores the caller's priority when it is truthy and
    P3 otherwise, and [updateTask] stores the priority the payload carries
    and otherwise keeps the record's.  So after any sequence of store
    operations whose creations carry a priority that is absent, falsy or one
    of P1, P2, P3, and whose update payloads carry no priority or one of the
    three, every stored record's priority is one of P1, P2, P3. *)
Theorem stored_priority_valid :
  (∀ insertTask now st,
     prop (createTask insertTask now st).1 "priority"
     = (if truthy (prop insertTask "priority") then prop insertTask "priority"
        else VStr "P3")
     ∧ Map_get (currentTaskId st) (tasks (createTask insertTask now st).2)
       = Some (createTask insertTask now st).1)
  ∧ (∀ id updates existing st,
       Map_get id (tasks st) = Some existing →
       ∃ updated st',
         updateTask id updates st = (Some updated, st')
         ∧ Map_get id (tasks st') = Some updated
         ∧ prop updated "priority"
           = match ownProps updates !! "priority" with
             | Some supplied => supplied
             | None => prop existing "priority"
             end)
  ∧ (∀ ops,
       Forall suppliesValidPriority ops →
       Forall (λ t, validPriority (prop t "priority")) (Map_values (tasks (reached ops)))).
Proof.
  split_and!.
  - intros insertTask now st. split; [apply createTask_priority|].
    unfold createTask. cbn [fst snd tasks]. apply Map_get_set_eq.
  - intros id updates existing st Hget. unfold updateTask. rewrite Hget.
    eexists _, _. split; [reflexivity|]. cbn [tasks].
    split; [apply Map_get_set_eq | apply prop_union].
  - intros ops Hops. unfold reached.
    apply (run_invariant
             (λ st, Forall (λ t, validPriority (prop t "priority")) (Map_values (tasks st)))
             suppliesValidPriority); [|constructor|done].
    intros st op. apply step_validPriority.
Qed.

Lemma stored_priority_valid_witness :
  Forall suppliesValidPriority
    [OpCreateTask {[ "description" := VStr "Review the deck" ]} 3;
     OpCreateTask {[ "priority" := VStr "P1" ]} 4;
     OpUpdateTask 1 (VObj {[ "priority" := VStr "P2" ]});
     OpDeleteTask 2]
  ∧ Forall (λ t, validPriority (prop t "priority"))
      (Map_values (tasks (reached
         [OpCreateTask {[ "description" := VStr "Review the deck" ]} 3;
          OpCreateTask {[ "priority" := VStr "P1" ]} 4;
          OpUpdateTask 1 (VObj {[ "priority" := VStr "P2" ]});
          OpDeleteTask 2])))
  ∧ prop (createTask {[ "priority" := VStr "P1" ]} 4 MemStorage_new).1 "priority" = VStr "P1"
  ∧ prop (createTask {[ "priority" := VStr "" ]} 4 MemStorage_new).1 "priority" = VStr "P3"
  ∧ ∃ updated st',
      updateTask 1 (VObj {[ "priority" := VStr "P2" ]})
        (reached [OpCreateTask {[ "description" := VStr "Review the deck" ]} 3])
      = (Some updated, st')
      ∧ Map_get 1 (tasks st') = Some updated
      ∧ prop updated "priority" = VStr "P2".
Proof.
  assert (Hops : Forall suppliesValidPriority
    [OpCreateTask {[ "description" := VStr "Review the deck" ]} 3;
     OpCreateTask {[ "priority" := VStr "P1" ]} 4;
     OpUpdateTask 1 (VObj {[ "priority" := VStr "P2" ]});
     OpDeleteTask 2]).
  { apply Forall_cons; split; [left; reflexivity|].
    apply Forall_cons; split.
    { right. unfold validPriority.
      replace (prop _ "priority") with (VStr "P1") by reflexivity. repeat constructor. }
    apply Forall_cons; split.
    { intros v Hv. vm_compute in Hv. injection Hv as <-.
      unfold validPriority. repeat constructor. }
    apply Forall_cons; split; [exact I | constructor]. }
  destruct stored_priority_valid as (Hcreate & Hupdate & Hinvariant).
  split_and!; [exact Hops | exact (Hinvariant _ Hops) | | |].
  - by rewrite (proj1 (Hcreate {[ "priority" := VStr "P1" ]} 4%Z MemStorage_new)).
  - by rewrite (proj1 (Hcreate {[ "priority" := VStr "" ]} 4%Z MemStorage_new)).
  - destruct (Hupdate 1%Z (VObj {[ "priority" := VStr "P2" ]})
                (createTask {[ "description" := VStr "Review the deck" ]} 3 MemStorage_new).1
                (reached [OpCreateTask {[ "description" := VStr "Review the deck" ]} 3]))
      as (updated & st' & Hupdated & Hstored & Hpriority); [reflexivity|].
    exists updated, st'. split_and!; [done | done |]. by rewrite Hpriority.
Defined.

(** C4, as stated, fails.  The [PUT] handler hands the request body to
    [updateTask], which merges it into the record: after [urgentOps] the
    stored record's priority is the string [urgent]. *)
Lemma stored_priority_counterexample :
  (handlePutTask (Some 1%Z) (VObj {[ "priority" := VStr "urgent" ]})
     (reached [OpCreateTask {[ "description" := VStr "Ship the landing page";
                              "assignee" := VStr "Aman";
                              "deadline" := VStr "by 10pm tomorrow" ]} 0])).2
  = reached urgentOps
  ∧ (λ t, prop t "priority") <$> Map_values (tasks (reached urgentOps)) = [VStr "urgent"]
  ∧ ¬ Forall (λ t, validPriority (prop t "priority"))
        (Map_values (tasks (reached urgentOps))).
Proof.
  assert (Hstored : (λ t, prop t "priority") <$> Map_values (tasks (reached urgentOps))
                    = [VStr "urgent"]) by reflexivity.
  split_and!; [reflexivity | exact Hstored |].
  intros Hall. apply (Forall_fmap (λ t : object, prop t "priority") validPriority) in Hall.
  rewrite Hstored in Hall.
  apply Forall_cons in Hall as [Hurgent _]. unfold validPriority in Hurgent.
  repeat (apply elem_of_cons in Hurgent as [Hurgent|Hurgent]; [discriminate|]).
  by apply elem_of_nil in Hurgent.
Qed.

(** ** Persisting an extraction batch *)

Lemma hasRequiredFields_strings (taskData : object) :
  (∀ k, k ∈ ["description"; "assignee"; "deadline"] → ∃ s, prop taskData k = VStr s) →
  hasRequiredFields taskData
  = isNonEmptyString (prop taskData "description")
    && isNonEmptyString (prop taskData "assignee")
    && isNonEmptyString (prop taskData "deadline").
Proof.
  intros Hstr. unfold hasRequiredFields.
  destruct (Hstr "description") as [d ->]; [repeat constructor|].
  destruct (Hstr "assignee") as [a ->]; [repeat constructor|].
  destruct (Hstr "deadline") as [dl ->]; [repeat constructor|].
  done.
Qed.

Section routes_facts.
Context (insertTaskSchema_parse : gmap string value → completion (gmap string value)).
Context (transcriptProcessSchema_parse : value → completion string).

(** The loop is a run of the store: one [createTask] for each candidate
    that has the required fields, in order, when the schema accepts them. *)
Lemma saveTasks_creations (clock : nat → Z) (extractedTasks savedTasks validated : list object)
    (st : MemStorage) :
  Forall2 (λ c v, insertTaskSchema_parse c = Return v)
    (List.filter hasRequiredFields extractedTasks) validated →
  saveTasks insertTaskSchema_parse clock extractedTasks savedTasks st
  = (Return (savedTasks
             ++ createdTasks
                  (run st (creations (λ k, clock (length savedTasks + k)) validated)).1),
     (run st (creations (λ k, clock (length savedTasks + k)) validated)).2).
Proof.
  revert savedTasks validated st.
  induction extractedTasks as [|taskData rest IH]; intros savedTasks validated st;
    cbn [saveTasks List.filter].
  - intros ->%Forall2_nil_inv_l. simpl. by rewrite app_nil_r.
  - destruct (hasRequiredFields taskData).
    + intros (v & vs & Hv & Hvs & ->)%Forall2_cons_inv_l. rewrite Hv.
      unfold creations. cbn [imap run step]. rewrite Nat.add_0_r.
      destruct (createTask v (clock (length savedTasks)) st) as [savedTask st'].
      rewrite (IH _ _ _ Hvs). unfold creations.
      rewrite (imap_ext _ ((λ k v0, OpCreateTask v0 (clock (length savedTasks + k))) ∘ S) vs).
      2:{ intros k x _. simpl. rewrite length_app. simpl. do 2 f_equal. lia. }
      destruct (run st' _) as [rs st'']. simpl. by rewrite <- app_assoc.
    + apply IH.
Qed.

(** C3, as the code has it.  A candidate is kept exactly when its
    description, assignee and deadline are all truthy, which for fields that
    are strings means: all non-empty.  The others are dropped without a word
    and no [createTask] is made for them.  When the insert schema accepts
    every kept candidate, both processing handlers answer success, the count
    in the message is the number of kept candidates, and the store has made
    exactly one [createTask] for each of them, in order. *)
Theorem saveTasks_keeps_complete_candidates (env : Services) (reqBody : value)
    (file : UploadedFile) (transcript : string) (extractedTasks validated : list object)
    (st : MemStorage) :
  String.eqb (trim transcript) "" = false →
  extractTasksFromTranscript (completions env transcript) = Return extractedTasks →
  Forall2 (λ c v, insertTaskSchema_parse c = Return v)
    (List.filter hasRequiredFields extractedTasks) validated →
  let kept := List.filter hasRequiredFields extractedTasks in
  let persisted := run st (creations (clock env) validated) in
  (∀ c, c ∈ kept ↔ c ∈ extractedTasks
                    ∧ truthy (prop c "description") = true
                    ∧ truthy (prop c "assignee") = true
                    ∧ truthy (prop c "deadline") = true)
  ∧ length (createdTasks persisted.1) = length kept
  ∧ (transcriptProcessSchema_parse reqBody = Return transcript →
     handleProcessTranscript insertTaskSchema_parse transcriptProcessSchema_parse
       env reqBody st
     = ({| status := 200;
           body := VObj {[
             "message" := VStr ("Successfully extracted "
                                +:+ pretty (length kept) +:+ " tasks");
             "tasks" := VArr (VObj <$> createdTasks persisted.1) ]} |},
        persisted.2))
  ∧ (transcribeAudio env (buffer file) (originalname file) = Return transcript →
     handleProcessAudio insertTaskSchema_parse env (Some file) st
     = ({| status := 200;
           body := VObj {[
             "transcript" := VStr transcript;
             "message" := VStr ("Successfully extracted "
                                +:+ pretty (length kept) +:+ " tasks from audio");
             "tasks" := VArr (VObj <$> createdTasks persisted.1) ]} |},
        persisted.2)).
Proof.
  intros Htrim Hextract Hvalid kept persisted.
  assert (Hlen : length (createdTasks persisted.1) = length kept).
  { subst kept persisted. rewrite (Forall2_length _ _ _ Hvalid). clear.
    generalize (clock env). revert st.
    induction validated as [|v vs IH]; intros st clock; [done|].
    unfold creations. cbn [imap run step].
    destruct (createTask v (clock 0%nat) st) as [t st'].
    specialize (IH st' (clock ∘ S)). unfold creations in IH.
    destruct (run st' _) as [rs st'']. simpl in *. by rewrite IH. }
  pose proof (saveTasks_creations (clock env) extractedTasks [] validated st Hvalid)
    as Hsave.
  simpl in Hsave. fold persisted in Hsave.
  split_and!.
  - intros c. subst kept. rewrite list_elem_of_In, filter_In, <- list_elem_of_In.
    unfold hasRequiredFields. rewrite !andb_true_iff. tauto.
  - done.
  - intros Hbody. unfold handleProcessTranscript.
    rewrite Hbody, Htrim, Hextract, Hsave. rewrite <- Hlen. reflexivity.
  - intros Haudio. unfold handleProcessAudio.
    rewrite Haudio, Htrim, Hextract, Hsave. rewrite <- Hlen. reflexivity.
Qed.
End routes_facts.

Lemma saveTasks_keeps_complete_candidates_witness :
  handleProcessAudio insertTaskSchema_model landingPage
    (Some {| buffer := "ID3"; originalname := "standup.mp3" |}) MemStorage_new
  = ({| status := 200;
        body := VObj {[
          "transcript" := VStr "Aman, take the landing page by 10pm tomorrow.";
          "message" := VStr "Successfully extracted 2 tasks from audio";
          "tasks" := VArr (VObj <$>
            [ {[ "id" := VNum 1; "description" := VStr "Take the landing page";
                 "assignee" := VStr "Aman"; "deadline" := VStr "by 10pm tomorrow";
                 "priority" := VStr "P3"; "createdAt" := VDate 1000 ]};
              {[ "id" := VNum 2; "description" := VStr "Client follow-up";
                 "assignee" := VStr "Rajiv"; "deadline" := VStr "by Wednesday";
                 "priority" := VStr "P1"; "createdAt" := VDate 1001 ]} ]) ]} |},
      reached
        [ OpCreateTask {[ "description" := VStr "Take the landing page";
                          "assignee" := VStr "Aman";
                          "deadline" := VStr "by 10pm tomorrow";
                          "priority" := VStr "P3" ]} 1000;
          OpCreateTask {[ "description" := VStr "Client follow-up";
                          "assignee" := VStr "Rajiv";
                          "deadline" := VStr "by Wednesday";
                          "priority" := VStr "P1" ]} 1001 ]).
Proof.
  opose proof* (saveTasks_keeps_complete_candidates
                  insertTaskSchema_model transcriptProcessSchema_model landingPage
                  (VObj {[ "transcript" :=
                             VStr "Aman, take the landing page by 10pm tomorrow." ]})
                  {| buffer := "ID3"; originalname := "standup.mp3" |}
                  "Aman, take the landing page by 10pm tomorrow."
                  _ _ MemStorage_new)
    as (_ & _ & _ & Haudio).
  - reflexivity.
  - reflexivity.
  - vm_compute List.filter.
    econstructor; [reflexivity|]. econstructor; [reflexivity|]. constructor.
  - rewrite (Haudio eq_refl). vm_compute. reflexivity.
Defined.

(** C3, as stated, fails.  The language model's answer is JSON and nothing
    turns its fields into strings.  A candidate whose description is the
    number 5 is no non-empty string, yet it passes the check: whatever the
    insert schema is, the request does not end as a success that dropped the
    candidate and left the store alone (the schema either rejects the
    candidate, and the request fails, or accepts it, and it is stored). *)
Lemma numeric_description_counterexample :
  (∃ c, extractTasksFromTranscript (completions numericDescription "") = Return [c]
        ∧ isNonEmptyString (prop c "description") = false
        ∧ hasRequiredFields c = true)
  ∧ ¬ ∃ insertTaskSchema_parse,
        handleProcessAudio insertTaskSchema_parse numericDescription
          (Some {| buffer := "ID3"; originalname := "standup.mp3" |}) MemStorage_new
        = ({| status := 200;
              body := VObj {[
                "transcript" := VStr "Aman, take item five by Friday";
                "message" := VStr "Successfully extracted 0 tasks from audio";
                "tasks" := VArr [] ]} |},
           MemStorage_new).
Proof.
  split.
  - eexists. split_and!; reflexivity.
  - intros [parse Hsuccess]. unfold handleProcessAudio in Hsuccess.
    cbn [numericDescription transcribeAudio completions clock buffer originalname]
      in Hsuccess.
    change (String.eqb (trim "Aman, take item five by Friday") "") with false in Hsuccess.
    cbv iota in Hsuccess.
    match type of Hsuccess with
    | context [extractTasksFromTranscript ?u] =>
        let r := eval vm_compute in (extractTasksFromTranscript u) in
        change (extractTasksFromTranscript u) with r in Hsuccess
    end.
    cbn [saveTasks] in Hsuccess.
    match type of Hsuccess with
    | context [hasRequiredFields ?c] =>
        change (hasRequiredFields c) with true in Hsuccess
    end.
    cbv iota in Hsuccess.
    destruct (parse _) as [validated|m].
    + apply (f_equal (λ p, tasks p.2)) in Hsuccess.
      rewrite (surjective_pairing (createTask validated _ _)) in Hsuccess.
      cbn [saveTasks snd] in Hsuccess. unfold createTask in Hsuccess.
      cbn [snd tasks Map_set] in Hsuccess. discriminate Hsuccess.
    + apply (f_equal (λ p, status p.1)) in Hsuccess.
      cbn [fst] in Hsuccess. unfold audioFailure in Hsuccess.
      repeat destruct (_ || _) in Hsuccess; repeat destruct (includes _ _) in Hsuccess;
        discriminate Hsuccess.
Qed.

(** ** The media entry: an empty transcript *)

Lemma trimStart_whitespaceOnly (s : string) : whitespaceOnly s → trimStart s = "".
Proof.
  unfold whitespaceOnly. induction s as [|c s IH]; simpl; [done|].
  intros [-> Hs]%Forall_cons. by apply IH.
Qed.

Lemma trim_whitespaceOnly (s : string) : whitespaceOnly s → trim s = "".
Proof. intros Hs. unfold trim. by rewrite (trimStart_whitespaceOnly s Hs). Qed.

(** C9.  When the transcription of the upload comes back empty or made of
    white space only, [POST /api/process-audio] answers 400 with the message
    that no speech was detected, and the store is the one it was: nothing is
    extracted and no task is persisted.  This holds for every insert schema
    and whatever the language model would have answered. *)
Theorem empty_transcript_no_speech
    (insertTaskSchema_parse : gmap string value → completion (gmap string value))
    (env : Services) (file : UploadedFile) (transcript : string) (st : MemStorage) :
  transcribeAudio env (buffer file) (originalname file) = Return transcript →
  whitespaceOnly transcript →
  handleProcessAudio insertTaskSchema_parse env (Some file) st
  = (messageOnly 400 "No speech detected in audio file", st).
Proof.
  intros Htranscribed Hblank. unfold handleProcessAudio.
  by rewrite Htranscribed, (trim_whitespaceOnly _ Hblank).
Qed.

Lemma empty_transcript_no_speech_witness :
  whitespaceOnly ("  " +:+ newline)
  ∧ handleProcessAudio insertTaskSchema_model silence
      (Some {| buffer := "RIFF"; originalname := "meeting.mp4" |})
      (reached [OpCreateTask {[ "description" := VStr "Earlier task" ]} 7])
    = (messageOnly 400 "No speech detected in audio file",
       reached [OpCreateTask {[ "description" := VStr "Earlier task" ]} 7]).
Proof.
  assert (Hblank : whitespaceOnly ("  " +:+ newline)).
  { unfold whitespaceOnly. simpl. repeat constructor. }
  split; [exact Hblank|].
  apply (empty_transcript_no_speech insertTaskSchema_model silence
           {| buffer := "RIFF"; originalname := "meeting.mp4" |} ("  " +:+ newline)).
  - reflexivity.
  - exact Hblank.
Defined.

(** ** The payload shapes [extractTasksFromTranscript] accepts *)

Lemma toExtractedTask_candidateOf (item : value) :
  isNullish item = false → toExtractedTask item = Return (candidateOf item).
Proof. by destruct item. Qed.

Lemma toExtractedTask_nullish (item : value) :
  isNullish item = true → ∃ m, toExtractedTask item = Throw m.
Proof. destruct item; intros [=]; by eexists. Qed.

Lemma mapM_cons_completion {A B} (f : A → completion B) (x : A) (l : list A) :
  mapM f (x :: l) = (y ← f x; k ← mapM f l; mret (y :: k)).
Proof. reflexivity. Qed.

Lemma mapM_toExtractedTask (items : list value) :
  Forall (λ item, isNullish item = false) items →
  mapM toExtractedTask items = Return (candidateOf <$> items).
Proof.
  induction items as [|item items IH]; [done|].
  intros [Hitem Hitems]%Forall_cons.
  by rewrite mapM_cons_completion, (toExtractedTask_candidateOf item Hitem), (IH Hitems).
Qed.

Lemma mapM_toExtractedTask_nullish (items : list value) :
  Exists (λ item, isNullish item = true) items →
  ∃ m, mapM toExtractedTask items = Throw m.
Proof.
  induction items as [|item items IH]; [by intros ?%Exists_nil|].
  intros Hex. rewrite mapM_cons_completion.
  destruct (isNullish item) eqn:Hitem.
  - destruct (toExtractedTask_nullish item Hitem) as [m ->]. by exists m.
  - apply Exists_cons in Hex as [Hex|Hex]; [congruence|].
    rewrite (toExtractedTask_candidateOf item Hitem).
    destruct (IH Hex) as [m ->]. by exists m.
Qed.

Lemma tasksOf_not_array (result : value) :
  isArray result = false → isNullish result = false →
  tasksOf result = Return (js_or (propertyOf result "tasks") (VArr [])).
Proof. by destruct result. Qed.

(** C6, as the code has it.  A payload that is a list is used directly,
    and so is the list under [tasks] of any payload that is not [null]; each
    item yields a candidate with its defaults.  A payload that is neither a
    list nor [null] and whose [tasks] is missing or falsy is accepted as
    well, and yields the empty list.  The call fails with [ExtractionFailed],
    wrapping the message, when the upstream call or the parse fails, when
    the payload is [null], when [tasks] is truthy and no list, and when an
    item of the list is [null]. *)
Theorem extractTasksFromTranscript_shapes (result : value) :
  (∀ items, result = VArr items →
     Forall (λ item, isNullish item = false) items →
     extractTasksFromTranscript (Parsed result) = Return (candidateOf <$> items))
  ∧ (∀ items, isArray result = false → isNullish result = false →
       propertyOf result "tasks" = VArr items →
       Forall (λ item, isNullish item = false) items →
       extractTasksFromTranscript (Parsed result) = Return (candidateOf <$> items))
  ∧ (isArray result = false → isNullish result = false →
     truthy (propertyOf result "tasks") = false →
     extractTasksFromTranscript (Parsed result) = Return [])
  ∧ (isNullish result = true →
     ∃ m, extractTasksFromTranscript (Parsed result) = ExtractionFailed m)
  ∧ (isArray result = false → isNullish result = false →
     truthy (propertyOf result "tasks") = true →
     isArray (propertyOf result "tasks") = false →
     extractTasksFromTranscript (Parsed result)
     = ExtractionFailed "tasks.map is not a function")
  ∧ (∀ items,
       result = VArr items
       ∨ (isArray result = false ∧ isNullish result = false
          ∧ propertyOf result "tasks" = VArr items) →
       Exists (λ item, isNullish item = true) items →
       ∃ m, extractTasksFromTranscript (Parsed result) = ExtractionFailed m)
  ∧ (∀ m, extractTasksFromTranscript (CallFailed m) = ExtractionFailed m
          ∧ extractTasksFromTranscript (ParseFailed m) = ExtractionFailed m).
Proof.
  unfold extractTasksFromTranscript, ExtractionFailed. split_and!.
  - intros items -> Hitems. cbn. by rewrite (mapM_toExtractedTask items Hitems).
  - intros items Harr Hnull Htasks Hitems.
    rewrite (tasksOf_not_array result Harr Hnull), Htasks. cbn.
    by rewrite (mapM_toExtractedTask items Hitems).
  - intros Harr Hnull Hfalsy.
    rewrite (tasksOf_not_array result Harr Hnull). unfold js_or. by rewrite Hfalsy.
  - destruct result; intros [=]; by eexists.
  - intros Harr Hnull Htruthy Hnolist.
    rewrite (tasksOf_not_array result Harr Hnull). unfold js_or. rewrite Htruthy. cbn.
    by destruct (propertyOf result "tasks").
  - intros items Hshape Hex.
    destruct (mapM_toExtractedTask_nullish items Hex) as [m Hm]. exists m.
    destruct Hshape as [-> | (Harr & Hnull & Htasks)].
    + cbn. by rewrite Hm.
    + rewrite (tasksOf_not_array result Harr Hnull), Htasks. cbn. by rewrite Hm.
  - done.
Qed.

Lemma extractTasksFromTranscript_shapes_witness :
  extractTasksFromTranscript (Parsed (VArr [VObj {[ "assignee" := VStr "Rajiv" ]}]))
    = Return [candidateOf (VObj {[ "assignee" := VStr "Rajiv" ]})]
  ∧ extractTasksFromTranscript
      (Parsed (VObj {[ "tasks" := VArr [VObj {[ "assignee" := VStr "Rajiv" ]}] ]}))
    = Return [candidateOf (VObj {[ "assignee" := VStr "Rajiv" ]})]
  ∧ extractTasksFromTranscript (Parsed (VNum 7)) = Return []
  ∧ (∃ m, extractTasksFromTranscript (Parsed VNull) = ExtractionFailed m)
  ∧ extractTasksFromTranscript (Parsed (VObj {[ "tasks" := VStr "soon" ]}))
    = ExtractionFailed "tasks.map is not a function"
  ∧ (∃ m, extractTasksFromTranscript (Parsed (VArr [VNull])) = ExtractionFailed m).
Proof.
  split_and!.
  - destruct (extractTasksFromTranscript_shapes
                (VArr [VObj {[ "assignee" := VStr "Rajiv" ]}])) as (Hlist & _).
    apply (Hlist [VObj {[ "assignee" := VStr "Rajiv" ]}]);
      [reflexivity | by repeat constructor].
  - destruct (extractTasksFromTranscript_shapes
                (VObj {[ "tasks" := VArr [VObj {[ "assignee" := VStr "Rajiv" ]}] ]}))
      as (_ & Hobject & _).
    apply (Hobject [VObj {[ "assignee" := VStr "Rajiv" ]}]);
      [reflexivity | reflexivity | reflexivity | by repeat constructor].
  - destruct (extractTasksFromTranscript_shapes (VNum 7)) as (_ & _ & Hempty & _).
    by apply Hempty.
  - destruct (extractTasksFromTranscript_shapes VNull) as (_ & _ & _ & Hnull & _).
    by apply Hnull.
  - destruct (extractTasksFromTranscript_shapes (VObj {[ "tasks" := VStr "soon" ]}))
      as (_ & _ & _ & _ & Hnolist & _).
    by apply Hnolist.
  - destruct (extractTasksFromTranscript_shapes (VArr [VNull]))
      as (_ & _ & _ & _ & _ & Hitem & _).
    apply (Hitem [VNull]); [by left | by repeat constructor].
Defined.

(** C6, as stated, fails.  The empty object parses, is neither a list nor
    an object with a list under [tasks], and the call returns the empty
    candidate list instead of failing; so does an object that keeps its list
    under another key. *)
Lemma extract_empty_object_counterexample :
  ¬ acceptedShape (VObj ∅)
  ∧ extractTasksFromTranscript (Parsed (VObj ∅)) = Return []
  ∧ ¬ acceptedShape (VObj {[ "items" := VArr [VObj {[ "description" := VStr "x" ]}] ]})
  ∧ extractTasksFromTranscript
      (Parsed (VObj {[ "items" := VArr [VObj {[ "description" := VStr "x" ]}] ]}))
    = Return [].
Proof.
  split_and!; [|reflexivity| |reflexivity].
  - intros [[items [=]] | (o & items & [= <-] & Htasks)]. discriminate Htasks.
  - intros [[items [=]] | (o & items & [= <-] & Htasks)]. discriminate Htasks.
Qed.

(** ** Scratch files of the video conversion *)

Lemma temp_paths_differ (now1 now2 : Z) (filename : string) :
  tempVideoPath now1 filename ≠ tempAudioPath now2.
Proof. unfold tempVideoPath, tempAudioPath. simpl. intros [=]. Qed.

Lemma tryUnlink_delete (path : string) (fs : gmap string string) :
  tryUnlink path fs = delete path fs.
Proof.
  unfold tryUnlink, unlinkSync. destruct (fs !! path) eqn:Hpath; [done|].
  simpl. symmetry. by apply delete_id.
Qed.

(** When [ffmpeg] cannot be started, both scratch files are gone afterwards. *)
Lemma extractAudioFromVideo_spawn_error_cleans (env : Conversion) (now1 now2 : Z)
    (videoBuffer filename message : string) (fs : gmap string string) :
  writeFails env = false → ffmpeg env = SpawnError message →
  ∃ fs', extractAudioFromVideo env now1 now2 videoBuffer filename fs
         = (Throw ("FFmpeg execution error: " +:+ message), fs')
         ∧ fs' !! tempVideoPath now1 filename = None
         ∧ fs' !! tempAudioPath now2 = None.
Proof.
  intros Hwrite Hffmpeg. unfold extractAudioFromVideo. rewrite Hwrite, Hffmpeg.
  eexists. split; [reflexivity|]. rewrite !tryUnlink_delete. split.
  - rewrite lookup_delete_ne by apply not_eq_sym, temp_paths_differ.
    by rewrite lookup_delete_eq.
  - by rewrite lookup_delete_eq.
Qed.

(** On success, both scratch files are gone afterwards. *)
Lemma extractAudioFromVideo_success_cleans (env : Conversion) (now1 now2 : Z)
    (videoBuffer filename stderr audioBuffer : string) (fs : gmap string string) :
  writeFails env = false → ffmpeg env = Closed (Some 0%Z) stderr (Some audioBuffer) →
  readFails env = false →
  ∃ fs', extractAudioFromVideo env now1 now2 videoBuffer filename fs
         = (Return audioBuffer, fs')
         ∧ fs' !! tempVideoPath now1 filename = None
         ∧ fs' !! tempAudioPath now2 = None.
Proof.
  intros Hwrite Hffmpeg Hread. unfold extractAudioFromVideo.
  rewrite Hwrite, Hffmpeg, Hread. rewrite decide_True by done.
  rewrite tryUnlink_delete.
  pose proof (temp_paths_differ now1 now2 filename) as Hne.
  assert (Haudio : delete (tempVideoPath now1 filename)
                     (<[tempAudioPath now2:=audioBuffer]>
                        (<[tempVideoPath now1 filename:=videoBuffer]> fs))
                   !! tempAudioPath now2 = Some audioBuffer).
  { rewrite lookup_delete_ne by done. by rewrite lookup_insert_eq. }
  rewrite Haudio. unfold unlinkSync. rewrite Haudio.
  eexists. split; [reflexivity|]. split.
  - rewrite lookup_delete_ne by done. by rewrite lookup_delete_eq.
  - by rewrite lookup_delete_eq.
Qed.

(** C7 does not hold of the code.  Once the video is written and [ffmpeg]
    has run and left bytes at the audio path, two exit paths reject without
    deleting the audio file: an exit code other than 0, and a failure to
    read the output after exit code 0.  The video file is deleted on both. *)
Theorem extractAudioFromVideo_leaves_audio_file (env : Conversion) (now1 now2 : Z)
    (videoBuffer filename stderr written : string) (code : option Z)
    (fs : gmap string string) :
  writeFails env = false →
  ffmpeg env = Closed code stderr (Some written) →
  code ≠ Some 0%Z ∨ readFails env = true →
  ∃ m fs', extractAudioFromVideo env now1 now2 videoBuffer filename fs = (Throw m, fs')
           ∧ fs' !! tempVideoPath now1 filename = None
           ∧ fs' !! tempAudioPath now2 = Some written.
Proof.
  intros Hwrite Hffmpeg Hpath. unfold extractAudioFromVideo.
  rewrite Hwrite, Hffmpeg. rewrite tryUnlink_delete.
  pose proof (temp_paths_differ now1 now2 filename) as Hne.
  assert (Haudio : delete (tempVideoPath now1 filename)
                     (<[tempAudioPath now2:=written]>
                        (<[tempVideoPath now1 filename:=videoBuffer]> fs))
                   !! tempAudioPath now2 = Some written).
  { rewrite lookup_delete_ne by done. by rewrite lookup_insert_eq. }
  destruct (decide (code = Some 0%Z)) as [Hzero|Hcode].
  - destruct Hpath as [Hcode|Hread]; [done|]. rewrite Haudio, Hread.
    eexists _, _. split; [reflexivity|]. split; [|done]. by rewrite lookup_delete_eq.
  - eexists _, _. split; [reflexivity|]. split; [|done]. by rewrite lookup_delete_eq.
Qed.

Lemma extractAudioFromVideo_leaves_audio_file_witness :
  ∃ m fs', extractAudioFromVideo brokenStream 1700000000000 1700000000001
             "RIFF" "meeting.mp4" ∅ = (Throw m, fs')
           ∧ fs' !! tempVideoPath 1700000000000 "meeting.mp4" = None
           ∧ fs' !! tempAudioPath 1700000000001 = Some "ID3".
Proof.
  apply (extractAudioFromVideo_leaves_audio_file brokenStream 1700000000000
           1700000000001 "RIFF" "meeting.mp4"
           "Conversion failed!" "ID3" (Some 1%Z) ∅).
  - reflexivity.
  - reflexivity.
  - left. discriminate.
Defined.

(** ** The CSV export *)

Lemma csvContent_collision :
  quoteInDescription ≠ quoteInAssignee
  ∧ exportToCSV quoteInDescription = exportToCSV quoteInAssignee
  ∧ is_Some (exportToCSV quoteInDescription).
Proof. split_and!; [discriminate | reflexivity | by eexists]. Qed.

(** C5 does not hold of the code.  The export wraps a field in quotes
    without doubling the quotes inside it, so two different task lists
    export to the same text, and no way of reading the text back, whatever
    it is, returns the exported fields for every task list. *)
Theorem exportToCSV_not_invertible (parse : string → list Task) :
  ∃ tasks csv, exportToCSV tasks = Some csv ∧ parse csv ≠ tasks.
Proof.
  destruct csvContent_collision as (Hne & Hsame & [csv Hcsv]).
  destruct (decide (parse csv = quoteInDescription)) as [Hparse|Hparse].
  - exists quoteInAssignee, csv. split; [by rewrite <- Hsame | congruence].
  - by exists quoteInDescription, csv.
Qed.

(* ===================================================================== *)
(** * Further properties of the store *)
(* ===================================================================== *)

Section Map_key_facts.
Context {V : Type}.
Implicit Types (m : list (Z * V)) (k : Z) (v : V).

Lemma Map_get_None_keys k m : Map_get k m = None ↔ k ∉ m.*1.
Proof.
  induction m as [|[k' v'] m IH]; simpl.
  - split; [intros _; apply not_elem_of_nil | done].
  - rewrite not_elem_of_cons. destruct (decide (k' = k)) as [->|Hne].
    + split; [done | by intros [? _]].
    + rewrite IH. split; [by intros ? | by intros [_ ?]].
Qed.

Lemma Map_set_fresh k v m : Map_get k m = None → Map_set k v m = m ++ [(k, v)].
Proof.
  induction m as [|[k' v'] m IH]; simpl; [done|].
  destruct (decide (k' = k)); [done|]. intros Hget. by rewrite (IH Hget).
Qed.

Lemma Map_set_present_keys k v m : is_Some (Map_get k m) → (Map_set k v m).*1 = m.*1.
Proof.
  induction m as [|[k' v'] m IH]; simpl; [by intros [? [=]]|].
  destruct (decide (k' = k)) as [->|Hne]; simpl; [done|].
  intros Hget. f_equal. by apply IH.
Qed.

Lemma Map_set_set k v v' m : Map_set k v (Map_set k v' m) = Map_set k v m.
Proof.
  induction m as [|[k0 v0] m IH]; simpl.
  - by rewrite decide_True.
  - destruct (decide (k0 = k)) as [->|Hne]; simpl.
    + by rewrite decide_True.
    + rewrite decide_False by done. by rewrite IH.
Qed.

Lemma Map_delete_get_ne k k' m : k ≠ k' → Map_get k' (Map_delete k m).2 = Map_get k' m.
Proof.
  intros Hne. induction m as [|[k0 v0] m IH]; simpl; [done|].
  destruct (decide (k0 = k)) as [->|Hk0]; simpl.
  - by rewrite decide_False.
  - destruct (Map_delete k m) as [b m']. simpl in *.
    destruct (decide (k0 = k')); [done | apply IH].
Qed.

Lemma Map_delete_keys_Forall (P : Z → Prop) k m :
  Forall P m.*1 → Forall P (Map_delete k m).2.*1.
Proof.
  induction m as [|[k' v'] m IH]; simpl; [done|].
  intros [Hk' Hm]%Forall_cons. destruct (decide (k' = k)); simpl; [done|].
  specialize (IH Hm). destruct (Map_delete k m) as [b m']. simpl in *. by constructor.
Qed.

Lemma Map_delete_keys_sorted k m :
  StronglySorted Z.lt m.*1 → StronglySorted Z.lt (Map_delete k m).2.*1.
Proof.
  induction m as [|[k' v'] m IH]; simpl; [done|].
  intros [Hk' Hm]%StronglySorted_cons. destruct (decide (k' = k)); simpl; [done|].
  specialize (IH Hm).
  pose proof (Map_delete_keys_Forall (Z.lt k') k m Hk') as Hall.
  destruct (Map_delete k m) as [b m']. simpl in *. by apply StronglySorted_cons.
Qed.

(** Deleting a key that is present, in a map without repeated keys. *)
Lemma Map_delete_present k v m :
  NoDup m.*1 → Map_get k m = Some v →
  (Map_delete k m).1 = true
  ∧ Map_get k (Map_delete k m).2 = None
  ∧ Map_values m ≡ₚ v :: Map_values (Map_delete k m).2
  ∧ length (Map_delete k m).2 + 1 = length m.
Proof.
  unfold Map_values. induction m as [|[k' v'] m IH]; simpl; [done|].
  intros [Hk' Hm]%NoDup_cons. destruct (decide (k' = k)) as [->|Hne]; simpl.
  - intros [= ->]. split_and!; [done | by apply Map_get_None_keys | done | lia].
  - intros Hget. destruct (IH Hm Hget) as (Hb & Hgone & Hperm & Hlen).
    destruct (Map_delete k m) as [b m']. simpl in *. rewrite decide_False by done.
    split_and!; [done | done | | lia].
    rewrite Hperm. apply Permutation_swap.
Qed.
End Map_key_facts.

Lemma StronglySorted_lt_NoDup (l : list Z) : StronglySorted Z.lt l → NoDup l.
Proof.
  induction l as [|x l IH]; [constructor|].
  intros [Hx Hl]%StronglySorted_cons. constructor; [|by apply IH].
  intros Hin. eapply Forall_forall in Hx; [|exact Hin]. lia.
Qed.

Lemma StronglySorted_lt_snoc (l : list Z) (x : Z) :
  StronglySorted Z.lt l → Forall (λ k, (k < x)%Z) l → StronglySorted Z.lt (l ++ [x]).
Proof.
  induction l as [|y l IH]; simpl.
  - intros _ _. repeat constructor.
  - intros [Hy Hl]%StronglySorted_cons [Hyx Hlx]%Forall_cons.
    apply StronglySorted_cons. split; [|by apply IH].
    apply Forall_app. split; [done | by repeat constructor].
Qed.

Lemma wellKeyed_fresh (st : MemStorage) :
  wellKeyed st → Map_get (currentTaskId st) (tasks st) = None.
Proof.
  intros [_ Hbelow]. apply Map_get_None_keys. intros Hin.
  eapply Forall_forall in Hbelow; [|exact Hin]. lia.
Qed.

Lemma step_wellKeyed (st : MemStorage) (op : Op) :
  (1 ≤ currentTaskId st)%Z ∧ wellKeyed st →
  (1 ≤ currentTaskId (step st op).2)%Z ∧ wellKeyed (step st op).2.
Proof.
  intros [Hone Hst]. pose proof (wellKeyed_fresh st Hst) as Hfresh.
  destruct Hst as [Hsorted Hbelow]. unfold wellKeyed, taskKeys in *.
  destruct op as [insertTask now | id updates | id |]; cbn [step].
  - unfold createTask. cbn [snd tasks currentTaskId].
    rewrite (Map_set_fresh _ _ _ Hfresh), fmap_app. cbn [fmap list_fmap fst].
    split_and!; [lia | |].
    + apply StronglySorted_lt_snoc; [done|].
      eapply Forall_impl; [exact Hbelow|]. simpl. lia.
    + apply Forall_app. split.
      * eapply Forall_impl; [exact Hbelow|]. simpl. lia.
      * repeat constructor; lia.
  - unfold updateTask. destruct (Map_get id (tasks st)) as [existing|] eqn:Hget;
      cbn [snd tasks currentTaskId]; [|done].
    by rewrite Map_set_present_keys by (by rewrite Hget).
  - unfold deleteTask.
    pose proof (Map_delete_keys_sorted id (tasks st) Hsorted) as Hsorted'.
    pose proof (Map_delete_keys_Forall _ id (tasks st) Hbelow) as Hbelow'.
    by destruct (Map_delete id (tasks st)).
  - cbn. split_and!; [done | constructor | constructor].
Qed.

Lemma reached_wellKeyed (ops : list Op) :
  (1 ≤ currentTaskId (reached ops))%Z ∧ wellKeyed (reached ops).
Proof.
  unfold reached.
  apply (run_invariant (λ st, (1 ≤ currentTaskId st)%Z ∧ wellKeyed st) (λ _, True)).
  - intros st op Hst _. by apply step_wellKeyed.
  - split; [done|]. split; constructor.
  - by apply Forall_true.
Qed.

Lemma stored_keys_NoDup (ops : list Op) : NoDup (tasks (reached ops)).*1.
Proof.
  destruct (reached_wellKeyed ops) as [_ [Hsorted _]].
  by apply StronglySorted_lt_NoDup.
Qed.

(** X1.  After any sequence of store operations on a fresh store, the keys
    of the task map increase in insertion order, so no key occurs twice, and
    every key lies from 1 up to, but not at, the counter: the next id is
    never a key in use. *)
Theorem stored_keys_increasing (ops : list Op) :
  StronglySorted Z.lt (taskKeys (reached ops))
  ∧ NoDup (taskKeys (reached ops))
  ∧ Forall (λ k, (1 ≤ k < currentTaskId (reached ops))%Z) (taskKeys (reached ops))
  ∧ Map_get (currentTaskId (reached ops)) (tasks (reached ops)) = None.
Proof.
  destruct (reached_wellKeyed ops) as [_ Hkeyed].
  pose proof (wellKeyed_fresh _ Hkeyed) as Hfresh. destruct Hkeyed as [Hsorted Hbelow].
  split_and!; [done | by apply StronglySorted_lt_NoDup | done | done].
Qed.

Lemma createTask_createdAt (insertTask : object) (now : Z) (st : MemStorage) :
  prop (createTask insertTask now st).1 "createdAt" = VDate now.
Proof. unfold createTask, prop; simpl. by rewrite lookup_insert_eq. Qed.

(** X2.  On every reachable store, [createTask] adds exactly one record, at
    the end of the map and under the id it returns, and leaves the others
    as they are.  Whenever [getAllTasks] then returns, it lists that record
    and the ones stored before, and it returns when every [createdAt] stored
    before can be read.  The record carries the caller's fields, except that
    [id] and [createdAt] are the store's and an absent or falsy [priority]
    is P3. *)
Theorem createTask_adds_one_record (ops : list Op) (insertTask : object) (now : Z) :
  let st := reached ops in
  let task := (createTask insertTask now st).1 in
  let st' := (createTask insertTask now st).2 in
  tasks st' = tasks st ++ [(currentTaskId st, task)]
  ∧ (∀ Date_parse listed,
       getAllTasks Date_parse st' = Return listed →
       listed ≡ₚ task :: Map_values (tasks st))
  ∧ (∀ Date_parse,
       Forall (λ r, readable r = true) (Map_values (tasks st)) →
       ∃ listed, getAllTasks Date_parse st' = Return listed)
  ∧ prop task "id" = VNum (currentTaskId st)
  ∧ prop task "createdAt" = VDate now
  ∧ prop task "priority" = js_or (prop insertTask "priority") (VStr "P3")
  ∧ (∀ k, k ∉ ["id"; "priority"; "createdAt"] → prop task k = prop insertTask k).
Proof.
  intros st task st'. subst task st'.
  destruct (reached_wellKeyed ops) as [_ Hkeyed].
  pose proof (wellKeyed_fresh _ Hkeyed) as Hfresh. fold st in Hfresh.
  assert (Htasks : tasks (createTask insertTask now st).2
                   = tasks st ++ [(currentTaskId st, (createTask insertTask now st).1)]).
  { unfold createTask. cbn [fst snd tasks]. by rewrite (Map_set_fresh _ _ _ Hfresh). }
  split_and!.
  - done.
  - intros Date_parse listed Hlisted%getAllTasks_Permutation.
    rewrite Hlisted, Htasks. unfold Map_values. rewrite fmap_app.
    cbn [fmap list_fmap snd]. by rewrite <- Permutation_cons_append.
  - intros Date_parse Hreadable. apply getAllTasks_Return.
    rewrite Htasks. unfold Map_values. rewrite fmap_app. cbn [fmap list_fmap snd].
    apply Forall_app. split; [done|]. constructor; [|constructor].
    unfold readable. by rewrite createTask_createdAt.
  - apply createTask_id.
  - apply createTask_createdAt.
  - apply createTask_priority.
  - intros k Hk. unfold createTask, prop. cbn [fst].
    rewrite !not_elem_of_cons in Hk. destruct Hk as (Hid & Hpriority & HcreatedAt & _).
    by rewrite !lookup_insert_ne by done.
Qed.

(** X3.  On every reachable store, deleting the id of a stored record
    answers true, removes that record and no other, and leaves one record
    less; deleting the same id again answers false and changes nothing.  The
    [DELETE] handler answers 200 the first time and 404 the second. *)
Theorem deleteTask_removes_one_record (ops : list Op) (id : Z) (stored : object) :
  Map_get id (tasks (reached ops)) = Some stored →
  let st := reached ops in
  let st' := (deleteTask id st).2 in
  deleteTask id st = (true, st')
  ∧ Map_get id (tasks st') = None
  ∧ (∀ k, k ≠ id → Map_get k (tasks st') = Map_get k (tasks st))
  ∧ Map_values (tasks st) ≡ₚ stored :: Map_values (tasks st')
  ∧ length (tasks st') + 1 = length (tasks st)
  ∧ deleteTask id st' = (false, st')
  ∧ handleDeleteTask (Some id) st = (messageOnly 200 "Task deleted successfully", st')
  ∧ handleDeleteTask (Some id) st' = (messageOnly 404 "Task not found", st').
Proof.
  intros Hget st st'. subst st'. fold st in Hget.
  pose proof (stored_keys_NoDup ops) as Hnodup. fold st in Hnodup.
  destruct (Map_delete_present id stored (tasks st) Hnodup Hget)
    as (Htrue & Hgone & Hperm & Hlen).
  assert (Hfirst : deleteTask id st = (true, (deleteTask id st).2)).
  { unfold deleteTask. destruct (Map_delete id (tasks st)) as [b m']. simpl in *.
    by rewrite Htrue. }
  assert (Htasks : tasks (deleteTask id st).2 = (Map_delete id (tasks st)).2).
  { unfold deleteTask. by destruct (Map_delete id (tasks st)). }
  assert (Hsecond : deleteTask id (deleteTask id st).2 = (false, (deleteTask id st).2)).
  { unfold deleteTask at 1. rewrite Htasks, (Map_delete_absent _ _ Hgone).
    rewrite <- Htasks. by destruct (deleteTask id st).2. }
  rewrite Htasks. split_and!; try done.
  - intros k Hk. by apply Map_delete_get_ne.
  - unfold handleDeleteTask. by rewrite Hfirst.
  - unfold handleDeleteTask. by rewrite Hsecond.
Qed.

Lemma deleteTask_removes_one_record_witness :
  Map_get 1 (tasks (reached [OpCreateTask ∅ 5; OpCreateTask ∅ 6]))
  = Some (createTask ∅ 5 MemStorage_new).1
  ∧ deleteTask 1 (reached [OpCreateTask ∅ 5; OpCreateTask ∅ 6])
    = (true, reached [OpCreateTask ∅ 5; OpCreateTask ∅ 6; OpDeleteTask 1])
  ∧ taskKeys (reached [OpCreateTask ∅ 5; OpCreateTask ∅ 6; OpDeleteTask 1]) = [2%Z]
  ∧ handleDeleteTask (Some 1%Z) (reached [OpCreateTask ∅ 5; OpCreateTask ∅ 6; OpDeleteTask 1])
    = (messageOnly 404 "Task not found",
       reached [OpCreateTask ∅ 5; OpCreateTask ∅ 6; OpDeleteTask 1]).
Proof.
  destruct (deleteTask_removes_one_record [OpCreateTask ∅ 5; OpCreateTask ∅ 6] 1
              (createTask ∅ 5 MemStorage_new).1 eq_refl)
    as (Hfirst & _ & _ & _ & _ & _ & _ & Hagain).
  split_and!; [reflexivity | exact Hfirst | reflexivity | exact Hagain].
Defined.

(** X4.  [updateTask] on a stored record merges the payload into it: a field
    the payload carries takes the payload's value, every other field keeps
    its value.  The record stays under its key and in its place, no other
    record changes, and neither the number of records nor the counters
    change. *)
Theorem updateTask_merges_payload (id : Z) (updates : value) (existing : object)
    (st : MemStorage) :
  Map_get id (tasks st) = Some existing →
  ∃ updated st',
    updateTask id updates st = (Some updated, st')
    ∧ (∀ k, prop updated k
            = match ownProps updates !! k with
              | Some v => v
              | None => prop existing k
              end)
    ∧ Map_get id (tasks st') = Some updated
    ∧ (∀ k, k ≠ id → Map_get k (tasks st') = Map_get k (tasks st))
    ∧ taskKeys st' = taskKeys st
    ∧ currentTaskId st' = currentTaskId st
    ∧ users st' = users st ∧ currentUserId st' = currentUserId st.
Proof.
  intros Hget. unfold updateTask. rewrite Hget. eexists _, _.
  split; [reflexivity|]. cbn [tasks currentTaskId users currentUserId]. split_and!.
  - intros k. apply prop_union.
  - apply Map_get_set_eq.
  - intros k Hk. by apply Map_get_set_ne.
  - unfold taskKeys. cbn [tasks]. apply Map_set_present_keys. by rewrite Hget.
  - done.
  - done.
  - done.
Qed.

Lemma updateTask_merges_payload_witness :
  ∃ updated st',
    updateTask 1 (editForm "Ship it" "Aman" "Monday" "P1")
      (reached [OpCreateTask {[ "description" := VStr "Ship" ]} 5; OpCreateTask ∅ 6])
    = (Some updated, st')
    ∧ prop updated "id" = VNum 1
    ∧ prop updated "createdAt" = VDate 5
    ∧ prop updated "description" = VStr "Ship it"
    ∧ prop updated "priority" = VStr "P1"
    ∧ taskKeys st' = [1%Z; 2%Z].
Proof.
  destruct (updateTask_merges_payload 1 (editForm "Ship it" "Aman" "Monday" "P1")
              (createTask {[ "description" := VStr "Ship" ]} 5 MemStorage_new).1
              (reached [OpCreateTask {[ "description" := VStr "Ship" ]} 5;
                        OpCreateTask ∅ 6]) eq_refl)
    as (updated & st' & Hupdate & Hfields & _ & _ & Hkeys & _).
  exists updated, st'. split_and!; [exact Hupdate | | | | | by rewrite Hkeys].
  - by rewrite (Hfields "id").
  - by rewrite (Hfields "createdAt").
  - by rewrite (Hfields "description").
  - by rewrite (Hfields "priority").
Defined.

(** X5.  Sending the same update twice is the same as sending it once: the
    second [updateTask] returns the record the first returned and leaves the
    store as the first left it. *)
Theorem updateTask_twice (id : Z) (updates : value) (existing : object) (st : MemStorage) :
  Map_get id (tasks st) = Some existing →
  updateTask id updates (updateTask id updates st).2 = updateTask id updates st.
Proof.
  intros Hget. unfold updateTask at 2 3. rewrite Hget. cbn [snd].
  unfold updateTask. cbn [tasks users currentUserId currentTaskId].
  rewrite Map_get_set_eq, Map_set_set.
  by rewrite (assoc_L (∪)), (idemp_L (∪)).
Qed.

Lemma updateTask_twice_witness :
  updateTask 1 (editForm "Ship it" "Aman" "Monday" "P1")
    (updateTask 1 (editForm "Ship it" "Aman" "Monday" "P1")
       (reached [OpCreateTask ∅ 5])).2
  = updateTask 1 (editForm "Ship it" "Aman" "Monday" "P1") (reached [OpCreateTask ∅ 5]).
Proof.
  apply (updateTask_twice 1 (editForm "Ship it" "Aman" "Monday" "P1")
           (createTask ∅ 5 MemStorage_new).1 (reached [OpCreateTask ∅ 5])).
  reflexivity.
Defined.

(** ** Ties in [getAllTasks] *)

Section stable_sort_facts.
Context (Date_parse : value → option Z).

Lemma sortsAfter_times_differ (x y : object) :
  sortsAfter (byCreatedAtDesc Date_parse) x y = Return true →
  createdTime Date_parse x ≠ createdTime Date_parse y.
Proof.
  unfold sortsAfter, byCreatedAtDesc, createdTime, timeOf.
  destruct (getTime Date_parse (prop y "createdAt")) as [[ty|]|m]; simpl; [| |done].
  - destruct (getTime Date_parse (prop x "createdAt")) as [[tx|]|m]; simpl; [|done..].
    intros [= Hpos%bool_decide_eq_true] [= ->]. lia.
  - by destruct (getTime Date_parse (prop x "createdAt")).
Qed.

Lemma sort_insert_filter_time (t : option Z) (x : object) (l sorted : list object) :
  sort_insert (byCreatedAtDesc Date_parse) x l = Return sorted →
  filter (λ r, createdTime Date_parse r = t) sorted
  = filter (λ r, createdTime Date_parse r = t) (x :: l).
Proof.
  revert sorted. induction l as [|y l IH]; intros sorted; cbn [sort_insert].
  - by intros [= <-].
  - destruct (sortsAfter (byCreatedAtDesc Date_parse) x y) as [[|]|m] eqn:Hafter;
      simpl; [|by intros [= <-]|done].
    destruct (sort_insert (byCreatedAtDesc Date_parse) x l) as [inserted|m]; simpl; [|done].
    intros [= <-]. apply sortsAfter_times_differ in Hafter.
    rewrite (filter_cons _ y), (IH inserted eq_refl), !(filter_cons _ x), (filter_cons _ y).
    repeat case_decide; congruence.
Qed.

Lemma Array_sort_filter_time (t : option Z) (l sorted : list object) :
  Array_sort (byCreatedAtDesc Date_parse) l = Return sorted →
  filter (λ r, createdTime Date_parse r = t) sorted
  = filter (λ r, createdTime Date_parse r = t) l.
Proof.
  revert sorted. induction l as [|x l IH]; intros sorted; cbn [Array_sort].
  - by intros [= <-].
  - destruct (Array_sort (byCreatedAtDesc Date_parse) l) as [rest|m]; simpl; [|done].
    intros Hinsert%(sort_insert_filter_time t).
    by rewrite Hinsert, !(filter_cons _ x), (IH rest eq_refl).
Qed.

(** X6.  [getAllTasks] is stable: when every stored [createdAt] is a time,
    it returns, and the records that share a creation time are listed in the
    order in which the map holds them, which is the order of their
    insertion. *)
Theorem getAllTasks_keeps_ties_in_insertion_order (t : Z) (st : MemStorage) :
  Forall (λ r, is_Some (createdTime Date_parse r)) (Map_values (tasks st)) →
  ∃ listed,
    getAllTasks Date_parse st = Return listed
    ∧ filter (λ r, createdTime Date_parse r = Some t) listed
      = filter (λ r, createdTime Date_parse r = Some t) (Map_values (tasks st)).
Proof.
  intros Htimed.
  destruct (Array_sort_newestFirst Date_parse _ Htimed) as (listed & Hlisted & _).
  exists listed. split; [done|]. by apply Array_sort_filter_time.
Qed.
End stable_sort_facts.

Lemma getAllTasks_keeps_ties_in_insertion_order_witness :
  ∃ listed,
    getAllTasks (λ _, None)
      (reached [OpCreateTask ∅ 10; OpCreateTask ∅ 30; OpCreateTask ∅ 20; OpCreateTask ∅ 30])
    = Return listed
    ∧ (λ r, prop r "id") <$> filter (λ r, createdTime (λ _, None) r = Some 30%Z) listed
      = [VNum 2; VNum 4].
Proof.
  destruct (getAllTasks_keeps_ties_in_insertion_order (λ _, None) 30
              (reached [OpCreateTask ∅ 10; OpCreateTask ∅ 30; OpCreateTask ∅ 20;
                        OpCreateTask ∅ 30]))
    as (listed & Hlisted & Hties).
  - repeat constructor; by eexists.
  - exists listed. split; [done|]. by rewrite Hties.
Defined.

(* ===================================================================== *)
(** * Users *)
(* ===================================================================== *)

Lemma find_snoc {A} (f : A → bool) (l : list A) (x : A) :
  List.find f (l ++ [x])
  = match List.find f l with
    | Some y => Some y
    | None => if f x then Some x else None
    end.
Proof.
  induction l as [|y l IH]; simpl; [done|]. by destruct (f y).
Qed.

(** X7.  [createUser] takes the next user id, stores the user under it and
    touches no task; [getUser] then returns that user and the other ids read
    as before.  Nothing makes user names unique: when a user of that name is
    stored already, the creation succeeds all the same and
    [getUserByUsername] keeps returning the earlier user; otherwise it
    returns the new one.  (The id is free in every store that has got its
    users from [createUser].) *)
Theorem createUser_then_lookup (insertUser : object) (username : string) (st : MemStorage) :
  Map_get (currentUserId st) (users st) = None →
  prop insertUser "username" = VStr username →
  let user := (createUser insertUser st).1 in
  let st' := (createUser insertUser st).2 in
  prop user "id" = VNum (currentUserId st)
  ∧ getUser (currentUserId st) st' = Some user
  ∧ (∀ id, id ≠ currentUserId st → getUser id st' = getUser id st)
  ∧ getUserByUsername username st'
    = match getUserByUsername username st with
      | Some earlier => Some earlier
      | None => Some user
      end
  ∧ currentUserId st' = (currentUserId st + 1)%Z
  ∧ tasks st' = tasks st ∧ currentTaskId st' = currentTaskId st.
Proof.
  intros Hfresh Hname user st'. subst user st'. unfold createUser. cbn [fst snd].
  unfold getUser, getUserByUsername. cbn [users tasks currentUserId currentTaskId].
  split_and!; try done.
  - unfold prop. by rewrite lookup_insert_eq.
  - apply Map_get_set_eq.
  - intros id Hid. by apply Map_get_set_ne.
  - rewrite (Map_set_fresh _ _ _ Hfresh). unfold Map_values.
    rewrite fmap_app. change (?f <$> [?x]) with [f x]. rewrite find_snoc. cbn [snd].
    destruct (List.find _ _); [done|].
    unfold prop in *. rewrite lookup_insert_ne by done. rewrite Hname.
    by rewrite String.eqb_refl.
Qed.

Lemma createUser_then_lookup_witness :
  getUserByUsername "aman"
    (createUser {[ "username" := VStr "aman"; "password" := VStr "second" ]}
       (createUser {[ "username" := VStr "aman"; "password" := VStr "first" ]}
          MemStorage_new).2).2
  = Some {[ "id" := VNum 1; "username" := VStr "aman"; "password" := VStr "first" ]}
  ∧ getUser 2
      (createUser {[ "username" := VStr "aman"; "password" := VStr "second" ]}
         (createUser {[ "username" := VStr "aman"; "password" := VStr "first" ]}
            MemStorage_new).2).2
    = Some {[ "id" := VNum 2; "username" := VStr "aman"; "password" := VStr "second" ]}.
Proof.
  opose proof* (createUser_then_lookup
                  {[ "username" := VStr "aman"; "password" := VStr "second" ]} "aman"
                  (createUser {[ "username" := VStr "aman"; "password" := VStr "first" ]}
                     MemStorage_new).2)
    as (_ & Hget & _ & Hname & _).
  - reflexivity.
  - reflexivity.
  - split.
    + rewrite Hname. vm_compute. reflexivity.
    + etransitivity; [exact Hget|]. vm_compute. reflexivity.
Defined.

(* ===================================================================== *)
(** * Further properties of the video conversion *)
(* ===================================================================== *)

Lemma tryUnlink_lookup_ne (path p : string) (fs : gmap string string) :
  p ≠ path → tryUnlink path fs !! p = fs !! p.
Proof. intros Hne. rewrite tryUnlink_delete. by apply lookup_delete_ne. Qed.

(** X8.  On every exit path the conversion leaves all files but its two
    scratch files as they were: whatever it writes or deletes is at the
    temporary video path or at the temporary audio path. *)
Theorem extractAudioFromVideo_touches_only_scratch (env : Conversion) (now1 now2 : Z)
    (videoBuffer filename : string) (fs : gmap string string) (p : string) :
  (extractAudioFromVideo env now1 now2 videoBuffer filename fs).2 !! p = fs !! p
  ∨ p = tempVideoPath now1 filename
  ∨ p = tempAudioPath now2.
Proof.
  destruct (decide (p = tempVideoPath now1 filename)) as [|Hvideo]; [by right; left|].
  destruct (decide (p = tempAudioPath now2)) as [|Haudio]; [by right; right|].
  left. unfold extractAudioFromVideo.
  destruct (writeFails env); [done|].
  destruct (ffmpeg env) as [m | code stderr written].
  - cbn [snd]. rewrite !tryUnlink_lookup_ne by done. by rewrite lookup_insert_ne.
  - assert (Hwritten :
      tryUnlink (tempVideoPath now1 filename)
        match written with
        | Some bytes =>
            <[tempAudioPath now2:=bytes]> (<[tempVideoPath now1 filename:=videoBuffer]> fs)
        | None => <[tempVideoPath now1 filename:=videoBuffer]> fs
        end !! p = fs !! p).
    { rewrite tryUnlink_lookup_ne by done.
      destruct written; by rewrite !lookup_insert_ne by done. }
    destruct (decide (code = Some 0%Z)); [|done].
    destruct (_ !! tempAudioPath now2) eqn:Hexists; [|done].
    destruct (readFails env); [done|].
    unfold unlinkSync. rewrite Hexists. cbn [snd].
    by rewrite lookup_delete_ne.
Qed.

(** X9.  The conversion resolves only after [ffmpeg] has exited with code 0
    and the output could be read.  It then returns the bytes that are at the
    audio path by then: those [ffmpeg] wrote, or, when it wrote nothing,
    those of a file that was at that path before the call.  Both scratch
    files are gone afterwards. *)
Theorem extractAudioFromVideo_resolves_clean (env : Conversion) (now1 now2 : Z)
    (videoBuffer filename audioBuffer : string) (fs fs' : gmap string string) :
  extractAudioFromVideo env now1 now2 videoBuffer filename fs = (Return audioBuffer, fs') →
  writeFails env = false ∧ readFails env = false
  ∧ (∃ stderr written, ffmpeg env = Closed (Some 0%Z) stderr written
       ∧ Some audioBuffer = match written with
                            | Some bytes => Some bytes
                            | None => fs !! tempAudioPath now2
                            end)
  ∧ fs' !! tempVideoPath now1 filename = None
  ∧ fs' !! tempAudioPath now2 = None.
Proof.
  unfold extractAudioFromVideo.
  pose proof (temp_paths_differ now1 now2 filename) as Hne.
  destruct (writeFails env); [done|].
  destruct (ffmpeg env) as [m | code stderr written]; [done|].
  destruct (decide (code = Some 0%Z)) as [->|]; [|done].
  rewrite tryUnlink_delete.
  destruct (_ !! tempAudioPath now2) as [found|] eqn:Hexists; [|done].
  destruct (readFails env); [done|].
  unfold unlinkSync. rewrite Hexists. intros [= -> <-].
  split_and!; [done | done | | |].
  - exists stderr, written. split; [done|].
    rewrite lookup_delete_ne in Hexists by done. destruct written as [bytes|].
    + by rewrite lookup_insert_eq in Hexists.
    + by rewrite lookup_insert_ne in Hexists by done.
  - rewrite lookup_delete_ne by done. by rewrite lookup_delete_eq.
  - by rewrite lookup_delete_eq.
Qed.

Lemma extractAudioFromVideo_resolves_clean_witness :
  extractAudioFromVideo
    {| writeFails := false; ffmpeg := Closed (Some 0%Z) "" None; readFails := false |}
    1700000000000 1700000000001 "RIFF" "meeting.mp4"
    {[ "/tmp/notes.txt" := "keep"; tempAudioPath 1700000000001 := "earlier" ]}
  = (Return "earlier", {[ "/tmp/notes.txt" := "keep" ]})
  ∧ Some "earlier"
    = ({[ "/tmp/notes.txt" := "keep"; tempAudioPath 1700000000001 := "earlier" ]}
         : gmap string string) !! tempAudioPath 1700000000001
  ∧ ({[ "/tmp/notes.txt" := "keep" ]} : gmap string string)
      !! tempVideoPath 1700000000000 "meeting.mp4" = None
  ∧ ({[ "/tmp/notes.txt" := "keep" ]} : gmap string string)
      !! tempAudioPath 1700000000001 = None.
Proof.
  assert (Hrun : extractAudioFromVideo
    {| writeFails := false; ffmpeg := Closed (Some 0%Z) "" None; readFails := false |}
    1700000000000 1700000000001 "RIFF" "meeting.mp4"
    {[ "/tmp/notes.txt" := "keep"; tempAudioPath 1700000000001 := "earlier" ]}
    = (Return "earlier", {[ "/tmp/notes.txt" := "keep" ]})) by (vm_compute; reflexivity).
  destruct (extractAudioFromVideo_resolves_clean _ _ _ _ _ _ _ _ Hrun)
    as (_ & _ & (stderr & written & Hclosed & Hbytes) & Hvideo & Haudio).
  injection Hclosed as _ <-.
  split_and!; [exact Hrun | exact Hbytes | exact Hvideo | exact Haudio].
Defined.

(* ===================================================================== *)
(** * Transcription and the upload filters *)
(* ===================================================================== *)

Lemma rev_app_append (x y acc : string) :
  String.rev_app (x +:+ y) acc = String.rev_app y (String.rev_app x acc).
Proof. revert acc. induction x as [|c x IH]; intros acc; simpl; [done | apply IH]. Qed.

Lemma endsWith_mp3 (stem : string) : endsWith ".mp3" (stem +:+ ".mp3") = true.
Proof.
  unfold endsWith, String.rev. rewrite rev_app_append. simpl.
  by destruct (String.rev_app stem "").
Qed.

Lemma contentType_mp3 (stem : string) : contentType (stem +:+ ".mp3") = "audio/mp3".
Proof. unfold contentType. by rewrite endsWith_mp3. Qed.

Lemma find_is_Some_existsb {A} (f : A → bool) (l : list A) :
  is_Some (List.find f l) ↔ existsb f l = true.
Proof.
  induction l as [|x l IH]; simpl; [by split; [intros [? [=]] | ]|].
  destruct (f x); simpl; [by split; [|eexists] | done].
Qed.

Lemma find_None_existsb {A} (f : A → bool) (l : list A) :
  List.find f l = None ↔ existsb f l = false.
Proof.
  rewrite eq_None_not_Some, find_is_Some_existsb. by destruct (existsb f l).
Qed.

Lemma prefix_two_characters (a1 a2 : Ascii.ascii) (s r : string) :
  String.prefix (String a1 (String a2 s)) r = true →
  ∃ r', r = String a1 (String a2 r').
Proof.
  destruct r as [|c1 [|c2 r]]; simpl; [done | |].
  - by destruct (Ascii.ascii_dec a1 c1).
  - destruct (Ascii.ascii_dec a1 c1) as [->|]; [|done].
    destruct (Ascii.ascii_dec a2 c2) as [->|]; [|done]. by exists r.
Qed.

(** A name cannot end in an audio extension and in a video extension. *)
Lemma audio_name_not_video (name : string) :
  is_Some (matchExtension audioExtensions name) →
  matchExtension videoExtensions name = None.
Proof.
  unfold matchExtension. rewrite find_is_Some_existsb, find_None_existsb.
  unfold audioExtensions, videoExtensions, endsWith.
  generalize (String.rev (lowercase name)). intros r. cbn [existsb].
  rewrite !orb_true_iff.
  intros [Haudio | [Haudio | [Haudio | [=]]]];
    apply prefix_two_characters in Haudio as [r' ->]; reflexivity.
Qed.

(** X10.  Conversion goes by the file name alone.  An upload that the filter
    accepts for its audio extension, or for its video MIME type while its
    name has no video extension, is sent to transcription as it was
    uploaded, under its own name: no scratch file is written and [ffmpeg]
    is not run. *)
Theorem transcribeAudio_passes_through
    (transcriptions_create : AudioFile → completion string) (env : Conversion)
    (now1 now2 : Z) (audioBuffer filename mimetype : string) (fs : gmap string string) :
  is_Some (matchExtension audioExtensions filename)
  ∨ (includesType allowedVideoTypes mimetype = true
     ∧ matchExtension videoExtensions filename = None) →
  fileFilter mimetype filename = Return true
  ∧ OpenAI.transcribeAudio transcriptions_create env now1 now2 audioBuffer filename fs
    = (rethrow "Failed to transcribe audio: "
         (transcriptions_create
            {| fileBits := audioBuffer; fileName := filename;
               fileType := contentType filename |}), fs).
Proof.
  intros Hupload.
  assert (Hvideo : matchExtension videoExtensions filename = None).
  { destruct Hupload as [Haudio | [_ Hnone]]; [by apply audio_name_not_video | done]. }
  split.
  - unfold fileFilter. destruct Hupload as [Haudio | [Hmime _]].
    + rewrite (bool_decide_eq_true_2 _ Haudio). by rewrite orb_true_r.
    + rewrite Hmime. by rewrite orb_true_r.
  - unfold OpenAI.transcribeAudio. by rewrite Hvideo.
Qed.

Lemma transcribeAudio_passes_through_witness :
  fileFilter "video/quicktime" "standup" = Return true
  ∧ OpenAI.transcribeAudio (λ file, Return (fileName file +:+ ":" +:+ fileType file))
      brokenStream 1 2 "RIFF" "standup" ∅
    = (Return "standup:audio/mpeg", ∅).
Proof.
  destruct (transcribeAudio_passes_through
              (λ file, Return (fileName file +:+ ":" +:+ fileType file))
              brokenStream 1 2 "RIFF" "standup" "video/quicktime" ∅) as [Hfilter Hsent].
  - right. split; reflexivity.
  - split; [exact Hfilter|]. rewrite Hsent. reflexivity.
Defined.

(** X11.  An upload whose name ends in a video extension, in any letter
    case, is converted first.  When the conversion rejects, the request to
    the transcription service is not made and the error is the conversion's,
    wrapped; when it resolves, the service gets the converted bytes under
    the name with the extension replaced by [.mp3] and with the type
    [audio/mp3]. *)
Theorem transcribeAudio_converts_video
    (transcriptions_create : AudioFile → completion string) (env : Conversion)
    (now1 now2 : Z) (audioBuffer filename ext : string) (fs : gmap string string) :
  matchExtension videoExtensions filename = Some ext →
  let stem := String.substring 0 (String.length filename - String.length ext) filename in
  match extractAudioFromVideo env now1 now2 audioBuffer filename fs with
  | (Throw m, fs') =>
      OpenAI.transcribeAudio transcriptions_create env now1 now2 audioBuffer filename fs
      = (Throw ("Failed to transcribe audio: " +:+ m), fs')
  | (Return converted, fs') =>
      OpenAI.transcribeAudio transcriptions_create env now1 now2 audioBuffer filename fs
      = (rethrow "Failed to transcribe audio: "
           (transcriptions_create
              {| fileBits := converted; fileName := stem +:+ ".mp3";
                 fileType := "audio/mp3" |}), fs')
  end.
Proof.
  intros Hext stem. unfold OpenAI.transcribeAudio, replaceVideoExtension. rewrite Hext.
  destruct (extractAudioFromVideo env now1 now2 audioBuffer filename fs)
    as [[converted|m] fs']; [|done].
  fold stem. by rewrite contentType_mp3.
Qed.

Lemma transcribeAudio_converts_video_witness :
  OpenAI.transcribeAudio (λ file, Return (fileName file +:+ ":" +:+ fileType file))
    {| writeFails := false; ffmpeg := Closed (Some 0%Z) "" (Some "ID3"); readFails := false |}
    1 2 "RIFF" "Standup.MOV" ∅
  = (Return "Standup.mp3:audio/mp3", ∅).
Proof.
  pose proof (transcribeAudio_converts_video
                (λ file, Return (fileName file +:+ ":" +:+ fileType file))
                {| writeFails := false; ffmpeg := Closed (Some 0%Z) "" (Some "ID3");
                   readFails := false |}
                1 2 "RIFF" "Standup.MOV" ".mov" ∅ eq_refl) as Hsent.
  replace (extractAudioFromVideo _ 1 2 "RIFF" "Standup.MOV" ∅)
    with (Return "ID3" : completion string, (∅ : gmap string string)) in Hsent
    by (vm_compute; reflexivity).
  rewrite Hsent. reflexivity.
Defined.




Lemma find_app_is_Some {A} (f : A → bool) (l1 l2 : list A) :
  bool_decide (is_Some (List.find f (l1 ++ l2)))
  = bool_decide (is_Some (List.find f l1)) || bool_decide (is_Some (List.find f l2)).
Proof.
  induction l1 as [|x l1 IH]; simpl.
  - done.
  - destruct (f x); [|done]. by rewrite bool_decide_eq_true_2 by by eexists.
Qed.

Lemma matchExtension_app (l1 l2 : list string) (name : string) :
  bool_decide (is_Some (matchExtension (l1 ++ l2) name))
  = bool_decide (is_Some (matchExtension l1 name))
    || bool_decide (is_Some (matchExtension l2 name)).
Proof. apply find_app_is_Some. Qed.

(** X13.  The page and the server agree on which files are of an allowed
    type: [handleFileSelect] keeps a file exactly when it is not larger than
    250 MB and the server's [fileFilter] accepts its type and name. *)
Theorem handleFileSelect_agrees_with_fileFilter (size : Z) (type name : string) :
  handleFileSelect size type name = Selected
  ↔ (size ≤ 250 * 1024 * 1024)%Z ∧ fileFilter type name = Return true.
Proof.
  unfold handleFileSelect, fileFilter. rewrite matchExtension_app.
  destruct (decide (250 * 1024 * 1024 < size)%Z) as [Hbig|Hsmall].
  - split; [done | lia].
  - destruct (includesType allowedAudioTypes type),
             (includesType allowedVideoTypes type),
             (bool_decide (is_Some (matchExtension audioExtensions name))),
             (bool_decide (is_Some (matchExtension videoExtensions name)));
      simpl; (split; [intros; split; [lia | done] | by intros [_ ?]]).
Qed.

(* ===================================================================== *)
(** * Further properties of the extraction and of the handlers *)
(* ===================================================================== *)







Section handler_facts.
Context (insertTaskSchema_parse : gmap string value → completion (gmap string value)).
Context (transcriptProcessSchema_parse : value → completion string).

Lemma saveTasks_app (clock : nat → Z) (l1 l2 savedTasks : list object) (st : MemStorage) :
  saveTasks insertTaskSchema_parse clock (l1 ++ l2) savedTasks st
  = match saveTasks insertTaskSchema_parse clock l1 savedTasks st with
    | (Return savedTasks', st') =>
        saveTasks insertTaskSchema_parse clock l2 savedTasks' st'
    | (Throw m, st') => (Throw m, st')
    end.
Proof.
  revert savedTasks st. induction l1 as [|taskData l1 IH]; intros savedTasks st;
    cbn [app saveTasks]; [done|].
  destruct (hasRequiredFields taskData); [|apply IH].
  destruct (insertTaskSchema_parse taskData) as [validated|m]; [|done].
  destruct (createTask validated _ st) as [savedTask st']. apply IH.
Qed.

Lemma creations_length (clock : nat → Z) (validated : list object) (st : MemStorage) :
  length (createdTasks (run st (creations clock validated)).1) = length validated.
Proof.
  revert st clock. induction validated as [|v vs IH]; intros st clock; [done|].
  unfold creations. cbn [imap run step].
  destruct (createTask v (clock 0%nat) st) as [t st'].
  specialize (IH st' (clock ∘ S)). unfold creations in IH.
  destruct (run st' _) as [rs st'']. simpl in *. by rewrite IH.
Qed.

Lemma transcriptFailure_status (m : string) : status (transcriptFailure m) ≠ 200%Z.
Proof.
  unfold transcriptFailure. destruct (_ || _); [done|]. by destruct (includes "parse" m).
Qed.

(** X15.  The batch is not a transaction.  When the insert schema rejects a
    candidate that has the required fields, the loop stops there and the
    request is answered with the failure, not with success; the candidates
    accepted before it stay persisted (one [createTask] each), and none of
    the candidates after it is persisted. *)
Theorem saveTasks_stops_at_rejection (env : Services) (reqBody : value)
    (transcript m : string) (accepted validated remaining : list object)
    (rejected : object) (st : MemStorage) :
  transcriptProcessSchema_parse reqBody = Return transcript →
  String.eqb (trim transcript) "" = false →
  extractTasksFromTranscript (completions env transcript)
  = Return (accepted ++ rejected :: remaining) →
  Forall2 (λ c v, insertTaskSchema_parse c = Return v)
    (List.filter hasRequiredFields accepted) validated →
  hasRequiredFields rejected = true →
  insertTaskSchema_parse rejected = Throw m →
  handleProcessTranscript insertTaskSchema_parse transcriptProcessSchema_parse
    env reqBody st
  = (transcriptFailure m, (run st (creations (clock env) validated)).2)
  ∧ status (transcriptFailure m) ≠ 200%Z
  ∧ length (createdTasks (run st (creations (clock env) validated)).1)
    = length (List.filter hasRequiredFields accepted).
Proof.
  intros Hbody Htrim Hextract Hvalid Hfields Hreject.
  split_and!; [|apply transcriptFailure_status|].
  - unfold handleProcessTranscript. rewrite Hbody, Htrim, Hextract, saveTasks_app.
    rewrite (saveTasks_creations insertTaskSchema_parse (clock env) accepted []
               validated st Hvalid).
    cbn [saveTasks]. by rewrite Hfields, Hreject.
  - by rewrite creations_length, (Forall2_length _ _ _ Hvalid).
Qed.

Lemma trimStart_not_blank (s : string) (c : Ascii.ascii) :
  isWhiteSpace c = false → trimStart (s +:+ String c "") ≠ "".
Proof.
  intros Hc. induction s as [|a s IH]; simpl.
  - by rewrite Hc.
  - by destruct (isWhiteSpace a).
Qed.

Lemma string_app_assoc (a b c : string) : (a +:+ b) +:+ c = a +:+ (b +:+ c).
Proof.
  induction a as [|x a IH]; [done|].
  change (String x ((a +:+ b) +:+ c) = String x (a +:+ (b +:+ c))). by f_equal.
Qed.

Lemma rev_app_snoc (s acc : string) :
  String.rev_app s acc = String.rev s +:+ acc.
Proof.
  unfold String.rev. revert acc. induction s as [|a s IH]; intros acc; simpl; [done|].
  rewrite (IH (String a acc)), (IH (String a "")).
  by rewrite string_app_assoc.
Qed.

Lemma rev_cons (a : Ascii.ascii) (s : string) :
  String.rev (String a s) = String.rev s +:+ String a "".
Proof. unfold String.rev at 1. simpl. apply rev_app_snoc. Qed.

Lemma rev_not_empty (s : string) : s ≠ "" → String.rev s ≠ "".
Proof.
  destruct s as [|a s]; [done|]. intros _. rewrite rev_cons.
  by destruct (String.rev s).
Qed.

(** [trim] leaves nothing exactly of the strings made of white space. *)
Lemma trim_empty_iff (s : string) : trim s = "" ↔ whitespaceOnly s.
Proof.
  split; [|apply trim_whitespaceOnly].
  unfold trim, whitespaceOnly. induction s as [|a s IH]; simpl; [constructor|].
  destruct (isWhiteSpace a) eqn:Ha.
  - intros Hs. constructor; [done | by apply IH].
  - intros Hempty. exfalso. rewrite rev_cons in Hempty.
    apply (rev_not_empty (trimStart (String.rev s +:+ String a ""))); [|done].
    by apply trimStart_not_blank.
Qed.

Lemma transcriptFailure_not_empty (m : string) :
  (status (transcriptFailure m),
   match body (transcriptFailure m) with
   | VObj o => (o !! "tasks", o !! "message")
   | _ => (None, None)
   end)
  ≠ (400%Z, (None, Some (VStr "Transcript cannot be empty"))).
Proof.
  unfold transcriptFailure, messageOnly.
  destruct (_ || _); [done|]. destruct (includes "parse" m); [|done].
  cbn [status body]. rewrite lookup_singleton_eq. by intros [=].
Qed.

(** X16.  [POST /api/process-transcript] answers 400 "Transcript cannot be
    empty" exactly for the transcripts that are empty or white space only,
    and then the store is untouched; for any other transcript whose
    extraction fails, it answers with that failure, and the store is
    untouched as well. *)
Theorem handleProcessTranscript_before_the_loop (env : Services) (reqBody : value)
    (transcript : string) (st : MemStorage) :
  transcriptProcessSchema_parse reqBody = Return transcript →
  (handleProcessTranscript insertTaskSchema_parse transcriptProcessSchema_parse
     env reqBody st
   = (messageOnly 400 "Transcript cannot be empty", st)
   ↔ whitespaceOnly transcript)
  ∧ (∀ m, ¬ whitespaceOnly transcript →
          extractTasksFromTranscript (completions env transcript) = Throw m →
          handleProcessTranscript insertTaskSchema_parse transcriptProcessSchema_parse
            env reqBody st
          = (transcriptFailure m, st)).
Proof.
  intros Hbody. unfold handleProcessTranscript. rewrite Hbody.
  destruct (String.eqb_spec (trim transcript) "") as [Hblank|Hblank].
  - apply trim_empty_iff in Hblank. split; [done | by intros m Hnot].
  - assert (Hnot : ¬ whitespaceOnly transcript) by by rewrite <- trim_empty_iff.
    split; [|by intros m _ ->]. split; [|done]. intros Hresponse. exfalso.
    apply (f_equal (λ p : Response * MemStorage,
                      (status p.1,
                       match body p.1 with
                       | VObj o => (o !! "tasks", o !! "message")
                       | _ => (None, None)
                       end))) in Hresponse.
    unfold messageOnly in Hresponse. cbn [fst status body] in Hresponse.
    rewrite lookup_singleton_ne, lookup_singleton_eq in Hresponse by done.
    destruct (extractTasksFromTranscript _) as [extractedTasks|m].
    + destruct (saveTasks _ _ _ _ _) as [[savedTasks|m] st'];
        cbn [fst status body] in Hresponse.
      * discriminate Hresponse.
      * by apply (transcriptFailure_not_empty m).
    + by apply (transcriptFailure_not_empty m).
Qed.
End handler_facts.

Lemma saveTasks_stops_at_rejection_witness :
  let accepted := [candidateOf (VObj {[ "description" := VStr "Book the room";
                                        "assignee" := VStr "Mia";
                                        "deadline" := VStr "today" ]})] in
  let validated : list object :=
    [ {[ "description" := VStr "Book the room"; "assignee" := VStr "Mia";
         "deadline" := VStr "today"; "priority" := VStr "P3" ]} ] in
  let reqBody := VObj {[ "transcript" := VStr "Mia books the room" ]} in
  handleProcessTranscript insertTaskSchema_model transcriptProcessSchema_model
    numericPriority reqBody MemStorage_new
  = (transcriptFailure "Expected string",
     (run MemStorage_new (creations (clock numericPriority) validated)).2)
  ∧ status (transcriptFailure "Expected string") ≠ 200%Z
  ∧ length (createdTasks (run MemStorage_new
                            (creations (clock numericPriority) validated)).1)
    = length (List.filter hasRequiredFields accepted).
Proof.
  intros accepted validated reqBody.
  apply (saveTasks_stops_at_rejection insertTaskSchema_model transcriptProcessSchema_model
           numericPriority reqBody "Mia books the room" "Expected string"
           accepted validated
           [candidateOf (VObj {[ "description" := VStr "Call the client";
                                 "assignee" := VStr "Rajiv";
                                 "deadline" := VStr "Monday" ]})]
           (candidateOf (VObj {[ "description" := VStr "Send the notes";
                                 "assignee" := VStr "Aman";
                                 "deadline" := VStr "Friday";
                                 "priority" := VNum 1 ]}))).
  - reflexivity.
  - reflexivity.
  - reflexivity.
  - vm_compute List.filter. econstructor; [reflexivity|]. constructor.
  - reflexivity.
  - reflexivity.
Defined.

Lemma handleProcessTranscript_before_the_loop_witness :
  let reqBody := VObj {[ "transcript" := VStr ("  " +:+ newline) ]} in
  (handleProcessTranscript insertTaskSchema_model transcriptProcessSchema_model
     landingPage reqBody MemStorage_new
   = (messageOnly 400 "Transcript cannot be empty", MemStorage_new)
   ↔ whitespaceOnly ("  " +:+ newline))
  ∧ (∀ m, ¬ whitespaceOnly ("  " +:+ newline) →
          extractTasksFromTranscript (completions landingPage ("  " +:+ newline)) = Throw m →
          handleProcessTranscript insertTaskSchema_model transcriptProcessSchema_model
            landingPage reqBody MemStorage_new
          = (transcriptFailure m, MemStorage_new)).
Proof.
  intros reqBody.
  apply (handleProcessTranscript_before_the_loop insertTaskSchema_model
           transcriptProcessSchema_model landingPage reqBody ("  " +:+ newline)).
  reflexivity.
Defined.

(* ===================================================================== *)
(** * Further properties of a batch, of the listing and of the client *)
(* ===================================================================== *)

Section batch_facts.
Context (insertTaskSchema_parse : object → completion object).
Context (transcriptProcessSchema_parse : value → completion string).

Lemma saveTasks_batch (clock : nat → Z) (extractedTasks savedTasks saved : list object)
    (st st' : MemStorage) :
  saveTasks insertTaskSchema_parse clock extractedTasks savedTasks st = (Return saved, st') →
  ∃ new,
    saved = savedTasks ++ new
    ∧ (λ t, prop t "id") <$> new
      = (λ k, VNum (currentTaskId st + Z.of_nat k)) <$> seq 0 (length new)
    ∧ (λ t, prop t "createdAt") <$> new
      = (λ k, VDate (clock (length savedTasks + k))) <$> seq 0 (length new)
    ∧ currentTaskId st' = (currentTaskId st + Z.of_nat (length new))%Z
    ∧ length new = length (List.filter hasRequiredFields extractedTasks)
    ∧ users st' = users st.
Proof.
  revert savedTasks st.
  induction extractedTasks as [|taskData rest IH]; intros savedTasks st;
    cbn [saveTasks List.filter].
  - intros Hsaved. exists []. rewrite app_nil_r.
    apply (f_equal (λ p, (p.1, p.2))) in Hsaved. cbn [fst snd] in Hsaved.
    injection Hsaved as -> ->. split_and!; try done. simpl. lia.
  - destruct (hasRequiredFields taskData); [|apply IH].
    destruct (insertTaskSchema_parse taskData) as [validatedTask|m]; [|done].
    pose proof (createTask_id validatedTask (clock (length savedTasks)) st) as Hid.
    pose proof (createTask_createdAt validatedTask (clock (length savedTasks)) st) as Hat.
    pose proof (createTask_counter validatedTask (clock (length savedTasks)) st) as Hctr.
    assert (Husers : users (createTask validatedTask (clock (length savedTasks)) st).2
                     = users st) by done.
    destruct (createTask validatedTask (clock (length savedTasks)) st) as [savedTask st1].
    cbn [fst snd] in Hid, Hat, Hctr, Husers.
    intros (new & -> & Hids & Hats & Hcounter & Hlen & Hu)%IH.
    exists (savedTask :: new). rewrite <- app_assoc. split; [done|].
    cbn [length seq fmap list_fmap]. rewrite <- !fmap_S_seq, <- !list_fmap_compose.
    split_and!.
    + rewrite Hid, Z.add_0_r. f_equal. rewrite Hids.
      apply list_fmap_ext. intros _ k _. simpl. rewrite Hctr. f_equal. lia.
    + rewrite Hat, Nat.add_0_r. f_equal. rewrite Hats.
      apply list_fmap_ext. intros _ k _. simpl. rewrite length_app. simpl.
      do 2 f_equal. lia.
    + rewrite Hcounter, Hctr. lia.
    + by rewrite Hlen.
    + by rewrite Hu.
Qed.

(** X17.  A batch that is persisted without a rejection gets consecutive
    ids: the saved records are one per candidate with the required fields,
    their ids count up from the store's counter, their [createdAt] are the
    successive clock readings, and the counter ends behind the last id. *)
Theorem saveTasks_ids_consecutive (clock : nat → Z) (extractedTasks saved : list object)
    (st st' : MemStorage) :
  saveTasks insertTaskSchema_parse clock extractedTasks [] st = (Return saved, st') →
  length saved = length (List.filter hasRequiredFields extractedTasks)
  ∧ (λ t, prop t "id") <$> saved
    = (λ k, VNum (currentTaskId st + Z.of_nat k)) <$> seq 0 (length saved)
  ∧ (λ t, prop t "createdAt") <$> saved
    = (λ k, VDate (clock k)) <$> seq 0 (length saved)
  ∧ currentTaskId st' = (currentTaskId st + Z.of_nat (length saved))%Z.
Proof.
  intros (new & -> & Hids & Hats & Hcounter & Hlen & _)%saveTasks_batch.
  by rewrite app_nil_l.
Qed.

Lemma transcriptFailure_messageOnly (m : string) :
  ∃ s message, transcriptFailure m = messageOnly s message ∧ s ≠ 200%Z.
Proof.
  unfold transcriptFailure. destruct (_ || _); [by eexists _, _|].
  destruct (includes "parse" m); by eexists _, _.
Qed.

Lemma audioFailure_messageOnly (m : string) :
  ∃ s message, audioFailure m = messageOnly s message ∧ s ≠ 200%Z.
Proof.
  unfold audioFailure. destruct (_ || _); [by eexists _, _|].
  destruct (includes "transcribe" m); by eexists _, _.
Qed.

Lemma messageOnly_tasks (s : Z) (message : string) :
  propertyOf (body (messageOnly s message)) "tasks" = VUndefined.
Proof. unfold messageOnly, propertyOf, prop. cbn [body]. by rewrite lookup_singleton_ne. Qed.

(** X18.  An upload whose transcription is a given text is processed like
    that text posted as a transcript: both requests leave the same store,
    either both succeed or both fail, and they answer the same [tasks]. *)
Theorem handleProcessAudio_as_handleProcessTranscript (env : Services)
    (file : UploadedFile) (reqBody : value) (transcript : string) (st : MemStorage) :
  transcribeAudio env (buffer file) (originalname file) = Return transcript →
  transcriptProcessSchema_parse reqBody = Return transcript →
  let audio := handleProcessAudio insertTaskSchema_parse env (Some file) st in
  let text := handleProcessTranscript insertTaskSchema_parse transcriptProcessSchema_parse
                env reqBody st in
  audio.2 = text.2
  ∧ (status audio.1 = 200%Z ↔ status text.1 = 200%Z)
  ∧ propertyOf (body audio.1) "tasks" = propertyOf (body text.1) "tasks".
Proof.
  intros Htranscribed Hparsed audio text. subst audio text.
  unfold handleProcessAudio, handleProcessTranscript. rewrite Htranscribed, Hparsed.
  assert (Hfail : ∀ (m : string) (st' : MemStorage),
            (audioFailure m, st').2 = (transcriptFailure m, st').2
            ∧ (status (audioFailure m, st').1 = 200%Z
               ↔ status (transcriptFailure m, st').1 = 200%Z)
            ∧ propertyOf (body (audioFailure m, st').1) "tasks"
              = propertyOf (body (transcriptFailure m, st').1) "tasks").
  { intros m st'. cbn [fst snd].
    destruct (audioFailure_messageOnly m) as (sa & ma & -> & Hsa).
    destruct (transcriptFailure_messageOnly m) as (ts & tm & -> & Hts).
    rewrite !messageOnly_tasks. by split_and!. }
  destruct (String.eqb (trim transcript) "").
  { cbn [fst snd]. rewrite !messageOnly_tasks. by split_and!. }
  destruct (extractTasksFromTranscript _) as [extractedTasks|m]; [|apply Hfail].
  destruct (saveTasks _ _ _ _ _) as [[savedTasks|m] st']; [|apply Hfail].
  cbn [fst snd status body]. split_and!; [done | done |].
  unfold propertyOf, prop.
  rewrite !lookup_insert_ne by done. by rewrite !lookup_singleton_eq.
Qed.

Lemma handleProcessTranscript_not_empty_answer (env : Services) (reqBody : value)
    (transcript : string) (st : MemStorage) :
  transcriptProcessSchema_parse reqBody = Return transcript →
  String.eqb (trim transcript) "" = false →
  handleProcessTranscript insertTaskSchema_parse transcriptProcessSchema_parse env reqBody st
  ≠ (messageOnly 400 "Transcript cannot be empty", st).
Proof.
  intros Hparsed Htrim Hresponse. unfold handleProcessTranscript in Hresponse.
  rewrite Hparsed, Htrim in Hresponse.
  apply (f_equal (λ p : Response * MemStorage,
                    (status p.1,
                     match body p.1 with
                     | VObj o => (o !! "tasks", o !! "message")
                     | _ => (None, None)
                     end))) in Hresponse.
  unfold messageOnly in Hresponse. cbn [fst status body] in Hresponse.
  rewrite lookup_singleton_ne, lookup_singleton_eq in Hresponse by done.
  destruct (extractTasksFromTranscript _) as [extractedTasks|m].
  - destruct (saveTasks _ _ _ _ _) as [[savedTasks|m] st'];
      cbn [fst status body] in Hresponse.
    + discriminate Hresponse.
    + by apply (transcriptFailure_not_empty m).
  - by apply (transcriptFailure_not_empty m).
Qed.

(** X19.  The component's check and the server's check of the transcript
    agree: [handleExtract] shows its notice instead of sending exactly for
    the transcripts that [POST /api/process-transcript] would answer with
    400 "Transcript cannot be empty", so a request the component sends is
    never answered that way. *)
Theorem handleExtract_guard_agrees (env : Services) (transcript : string)
    (selectedFile : option UploadedFile) (st : MemStorage) :
  transcriptProcessSchema_parse (VObj {[ "transcript" := VStr transcript ]})
  = Return transcript →
  handleExtract TextInput transcript selectedFile = None
  ↔ handleProcessTranscript insertTaskSchema_parse transcriptProcessSchema_parse env
      (VObj {[ "transcript" := VStr transcript ]}) st
    = (messageOnly 400 "Transcript cannot be empty", st).
Proof.
  intros Hparsed. unfold handleExtract.
  destruct (String.eqb (trim transcript) "") eqn:Htrim.
  - split; [intros _ | done]. unfold handleProcessTranscript. by rewrite Hparsed, Htrim.
  - split; [done|]. intros Hresponse.
    by destruct (handleProcessTranscript_not_empty_answer env _ transcript st Hparsed Htrim).
Qed.
End batch_facts.

Lemma saveTasks_ids_consecutive_witness :
  let saved : list object :=
    [ {[ "id" := VNum 1; "description" := VStr "Take the landing page";
         "assignee" := VStr "Aman"; "deadline" := VStr "by 10pm tomorrow";
         "priority" := VStr "P3"; "createdAt" := VDate 1000 ]};
      {[ "id" := VNum 2; "description" := VStr "Client follow-up";
         "assignee" := VStr "Rajiv"; "deadline" := VStr "by Wednesday";
         "priority" := VStr "P1"; "createdAt" := VDate 1001 ]} ] in
  (λ t, prop t "id") <$> saved
  = (λ k, VNum (currentTaskId MemStorage_new + Z.of_nat k)) <$> seq 0 (length saved)
  ∧ (λ t, prop t "createdAt") <$> saved
    = (λ k, VDate (clock landingPage k)) <$> seq 0 (length saved).
Proof.
  intros saved.
  opose proof* (saveTasks_ids_consecutive insertTaskSchema_model (clock landingPage)
                  [candidateOf (VObj {[ "description" := VStr "Take the landing page";
                                        "assignee" := VStr "Aman";
                                        "deadline" := VStr "by 10pm tomorrow" ]});
                   candidateOf (VObj {[ "description" := VStr "Book the room";
                                        "deadline" := VStr "today" ]});
                   candidateOf (VObj {[ "description" := VStr "Client follow-up";
                                        "assignee" := VStr "Rajiv";
                                        "deadline" := VStr "by Wednesday";
                                        "priority" := VStr "P1" ]})]
                  saved MemStorage_new
                  (saveTasks insertTaskSchema_model (clock landingPage)
                     [candidateOf (VObj {[ "description" := VStr "Take the landing page";
                                           "assignee" := VStr "Aman";
                                           "deadline" := VStr "by 10pm tomorrow" ]});
                      candidateOf (VObj {[ "description" := VStr "Book the room";
                                           "deadline" := VStr "today" ]});
                      candidateOf (VObj {[ "description" := VStr "Client follow-up";
                                           "assignee" := VStr "Rajiv";
                                           "deadline" := VStr "by Wednesday";
                                           "priority" := VStr "P1" ]})]
                     [] MemStorage_new).2)
    as (_ & Hids & Hats & _).
  - vm_compute. reflexivity.
  - by split.
Defined.

Lemma handleProcessAudio_as_handleProcessTranscript_witness :
  let audio := handleProcessAudio insertTaskSchema_model landingPage
                 (Some {| buffer := "ID3"; originalname := "standup.mp3" |}) MemStorage_new in
  let text := handleProcessTranscript insertTaskSchema_model transcriptProcessSchema_model
                landingPage
                (VObj {[ "transcript" :=
                           VStr "Aman, take the landing page by 10pm tomorrow." ]})
                MemStorage_new in
  audio.2 = text.2
  ∧ (status audio.1 = 200%Z ↔ status text.1 = 200%Z)
  ∧ propertyOf (body audio.1) "tasks" = propertyOf (body text.1) "tasks".
Proof.
  apply (handleProcessAudio_as_handleProcessTranscript insertTaskSchema_model
           transcriptProcessSchema_model landingPage
           {| buffer := "ID3"; originalname := "standup.mp3" |}
           (VObj {[ "transcript" :=
                      VStr "Aman, take the landing page by 10pm tomorrow." ]})
           "Aman, take the landing page by 10pm tomorrow.").
  - reflexivity.
  - reflexivity.
Defined.

Lemma handleExtract_guard_agrees_witness :
  handleExtract TextInput ("  " +:+ newline) (None : option UploadedFile) = None
  ↔ handleProcessTranscript insertTaskSchema_model transcriptProcessSchema_model landingPage
      (VObj {[ "transcript" := VStr ("  " +:+ newline) ]}) MemStorage_new
    = (messageOnly 400 "Transcript cannot be empty", MemStorage_new).
Proof.
  apply (handleExtract_guard_agrees insertTaskSchema_model transcriptProcessSchema_model
           landingPage ("  " +:+ newline) None MemStorage_new).
  reflexivity.
Defined.

(** ** The listing *)

(** X20.  Whenever [getAllTasks] returns, it lists every stored record
    exactly once, however [Date] reads the records' [createdAt]: sorting
    only rearranges.  It returns exactly when at most one record is stored
    or every stored [createdAt] can be converted to a primitive; with two or
    more records of which one has a [createdAt] that cannot, it throws, and
    [GET /api/tasks] answers 500. *)
Theorem getAllTasks_lists_every_record (Date_parse : value → option Z) (st : MemStorage) :
  (∀ listed,
     getAllTasks Date_parse st = Return listed →
     listed ≡ₚ Map_values (tasks st)
     ∧ (∀ task, task ∈ listed ↔ task ∈ Map_values (tasks st))
     ∧ length listed = length (tasks st))
  ∧ ((∃ listed, getAllTasks Date_parse st = Return listed)
     ↔ length (tasks st) ≤ 1 ∨ Forall (λ r, readable r = true) (Map_values (tasks st)))
  ∧ (status (handleGetTasks Date_parse st) = 200%Z
     ↔ length (tasks st) ≤ 1 ∨ Forall (λ r, readable r = true) (Map_values (tasks st)))
  ∧ (handleGetTasks Date_parse st = messageOnly 500 "Failed to fetch tasks"
     ∨ ∃ listed, getAllTasks Date_parse st = Return listed
                 ∧ handleGetTasks Date_parse st
                   = {| status := 200; body := VArr (VObj <$> listed) |}).
Proof.
  assert (Hreturns : (∃ listed, getAllTasks Date_parse st = Return listed)
            ↔ length (tasks st) ≤ 1
              ∨ Forall (λ r, readable r = true) (Map_values (tasks st))).
  { split.
    - intros [listed Hlisted].
      destruct (decide (length (tasks st) ≤ 1)) as [|Hmany]; [by left|]. right.
      apply Forall_forall. intros r Hr.
      destruct (readable r) eqn:Hreadable; [done|].
      destruct (getAllTasks_Throw Date_parse st) as [m Hm]; [lia| |congruence].
      apply Exists_exists. by exists r.
    - intros [Hfew|Hreadable]; [|by apply getAllTasks_Return].
      unfold getAllTasks, Map_values.
      destruct (tasks st) as [|[k r] [|? ?]]; simpl in *; [by eexists..|lia]. }
  split_and!; [|done| |].
  - intros listed Hperm%getAllTasks_Permutation.
    split_and!; [done | by intros task; rewrite Hperm |].
    rewrite Hperm. unfold Map_values. by rewrite length_fmap.
  - rewrite <- Hreturns. unfold handleGetTasks.
    destruct (getAllTasks Date_parse st) as [listed|m]; simpl.
    + split; [by eexists | done].
    + split; [done | by intros [? [=]]].
  - unfold handleGetTasks.
    destruct (getAllTasks Date_parse st) as [listed|m]; [right; by eexists | by left].
Qed.

(** ** The CSV export of fields without quotes and line feeds *)

Lemma occurs_app (c : Ascii.ascii) (a b : string) :
  occurs c (a +:+ b) = occurs c a || occurs c b.
Proof. induction a as [|x a IH]; simpl; [done|]. by rewrite IH, orb_assoc. Qed.

Lemma append_split_first (c : Ascii.ascii) (a a' r r' : string) :
  occurs c a = false → occurs c a' = false →
  a +:+ String c r = a' +:+ String c r' → a = a' ∧ r = r'.
Proof.
  revert a'. induction a as [|x a IH]; intros [|x' a']; simpl.
  - by intros _ _ [= ->].
  - intros _ [Hx _]%orb_false_elim [= -> _]. by rewrite Ascii.eqb_refl in Hx.
  - intros [Hx _]%orb_false_elim _ [= -> _]. by rewrite Ascii.eqb_refl in Hx.
  - intros [_ Ha]%orb_false_elim [_ Ha']%orb_false_elim [= -> Heq].
    by destruct (IH a' Ha Ha' Heq) as [-> ->].
Qed.

Lemma append_occurs (c : Ascii.ascii) (s a r : string) :
  occurs c s = false → s ≠ a +:+ String c r.
Proof.
  intros Hs ->. rewrite occurs_app in Hs. simpl in Hs.
  rewrite Ascii.eqb_refl in Hs. by destruct (occurs c a).
Qed.

Lemma csvRow_layout (task : Task) :
  csvRow task
  = dquote +:+ description task +:+ dquote +:+ "," +:+ dquote +:+ assignee task
    +:+ dquote +:+ "," +:+ dquote +:+ deadline task +:+ dquote +:+ "," +:+ priority task.
Proof. unfold csvRow, join, quoted. by rewrite !string_app_assoc. Qed.

Lemma csvRow_inj (t t' : Task) :
  plainFields t = true → plainFields t' = true → csvRow t = csvRow t' → t = t'.
Proof.
  unfold plainFields. rewrite !andb_true_iff, !negb_true_iff.
  intros ((((((Hd & Ha) & Hdl) & _) & _) & _) & _).
  intros ((((((Hd' & Ha') & Hdl') & _) & _) & _) & _).
  rewrite !csvRow_layout. unfold dquote.
  change (String ?x "" +:+ ?s) with (String x s).
  intros [= Heq].
  apply append_split_first in Heq as [Hdescription Heq]; [|done..].
  injection Heq as Heq.
  apply append_split_first in Heq as [Hassignee Heq]; [|done..].
  injection Heq as Heq.
  apply append_split_first in Heq as [Hdeadline Heq]; [|done..].
  injection Heq as Hpriority.
  change (priority t = priority t') in Hpriority.
  destruct t, t'. simpl in *. congruence.
Qed.

Lemma csvRow_one_line (t : Task) :
  plainFields t = true → occurs (Ascii.ascii_of_nat 10) (csvRow t) = false.
Proof.
  unfold plainFields. rewrite !andb_true_iff, !negb_true_iff.
  intros ((((((_ & _) & _) & Hd) & Ha) & Hdl) & Hp).
  rewrite csvRow_layout, !occurs_app, Hd, Ha, Hdl, Hp. reflexivity.
Qed.

Lemma join_newline_inj (x x' : string) (l l' : list string) :
  Forall (λ s, occurs (Ascii.ascii_of_nat 10) s = false) (x :: l) →
  Forall (λ s, occurs (Ascii.ascii_of_nat 10) s = false) (x' :: l') →
  join newline (x :: l) = join newline (x' :: l') → x :: l = x' :: l'.
Proof.
  revert x x' l'. induction l as [|y l IH]; intros x x' [|y' l'];
    intros [Hx Hl]%Forall_cons [Hx' Hl']%Forall_cons; cbn [join].
  - by intros ->.
  - intros Heq. by destruct (append_occurs _ _ _ _ Hx Heq).
  - intros Heq. symmetry in Heq. by destruct (append_occurs _ _ _ _ Hx' Heq).
  - unfold newline. change (String ?c "" +:+ ?s) with (String c s).
    intros [-> Heq]%append_split_first; [|done..].
    by rewrite (IH _ _ _ Hl Hl' Heq).
Qed.

Lemma csvContent_inj (tasks tasks' : list Task) :
  Forall (λ t, plainFields t = true) tasks → Forall (λ t, plainFields t = true) tasks' →
  csvContent tasks = csvContent tasks' → tasks = tasks'.
Proof.
  intros Hplain Hplain' Heq. unfold csvContent in Heq.
  apply join_newline_inj in Heq.
  - injection Heq as Hrows.
    revert tasks' Hplain' Hrows.
    induction Hplain as [|t tasks Ht Hplain IH]; intros [|t' tasks'] Hplain'; cbn [map];
      [done | done | done |].
    apply Forall_cons in Hplain' as [Ht' Hplain'].
    intros [Hrow Hrows]%(inj2 cons). f_equal; [by apply csvRow_inj | by apply IH].
  - constructor; [reflexivity|]. apply Forall_fmap.
    eapply Forall_impl; [exact Hplain|]. intros t. apply csvRow_one_line.
  - constructor; [reflexivity|]. apply Forall_fmap.
    eapply Forall_impl; [exact Hplain'|]. intros t. apply csvRow_one_line.
Qed.

(** X21.  For tasks whose description, assignee and deadline hold neither a
    double quote nor a line feed and whose priority holds no line feed, the
    export tells task lists apart: two different lists never export to the
    same text.  Commas inside the fields do no harm. *)
Theorem exportToCSV_plain_fields_distinct (tasks tasks' : list Task) :
  Forall (λ t, plainFields t = true) tasks →
  Forall (λ t, plainFields t = true) tasks' →
  tasks ≠ tasks' →
  exportToCSV tasks ≠ exportToCSV tasks'.
Proof.
  intros Hplain Hplain' Hne Heq. apply Hne. unfold exportToCSV in Heq.
  destruct (decide (length tasks = 0)) as [Hnil|_];
    destruct (decide (length tasks' = 0)) as [Hnil'|_]; try done.
  - apply length_zero_iff_nil in Hnil, Hnil'. by subst.
  - injection Heq as Heq. by apply csvContent_inj.
Qed.

Lemma exportToCSV_plain_fields_distinct_witness :
  exportToCSV commaInDescription ≠ exportToCSV commaInAssignee.
Proof.
  apply (exportToCSV_plain_fields_distinct commaInDescription commaInAssignee).
  - repeat constructor.
  - repeat constructor.
  - discriminate.
Defined.
